(** * MinHash signature engine (minhash.go): a shallow embedding

    The Go package keeps, for every engine, a slice of [uint64] minimums and
    a caller-supplied hash function.  The embedding follows the code:

    - Slices are references to backing arrays, so an explicit store is
      threaded through every operation: it maps array addresses to their
      contents, and a slice value is the address of its array.  The package
      never reslices, so a slice always spans its whole array.  Two engines
      holding the same address share their signature.
    - Run-time panics (index out of range, negative [make] length) are
      outcomes of their own, distinct from the [error] value that
      [Similarity] returns.  A panic keeps the writes made before it.
    - [uint64] values are integers with the wrap-around modulo [2^64]
      written out where the code computes.
    - A hash function is a total function from byte sequences to pairs (it
      is not nil and it returns); every call is recorded in the store, so
      that the number of calls an operation makes can be stated.
    - [float64] is IEEE 754 binary64 as specified by [SpecFloat]:
      conversion from [int] and division round to nearest, ties to even.
    - [make] always finds memory.  Lengths are Go [int]s: statements about
      [float64] results assume a length of at most [max_int]. *)

From Stdlib Require Import ZArith Lia List Strings.Byte String.
From Stdlib Require Import Floats.SpecFloat.
From stdpp Require Import base option list gmap.

Local Open Scope Z_scope.

(** ** Machine integers *)

(** [uint64] arithmetic wraps around modulo [2^64]. *)
Definition uint64 (z : Z) : Z := z mod 2 ^ 64.
Definition add64 (a b : Z) : Z := uint64 (a + b).
Definition mul64 (a b : Z) : Z := uint64 (a * b).
(** [^x] on a [uint64]: bitwise complement. *)
Definition not64 (a : Z) : Z := uint64 (Z.lnot a).

Definition max_uint64 : Z := 2 ^ 64 - 1.
(** Largest value of Go's [int] on a 64-bit platform. *)
Definition max_int : Z := 2 ^ 63 - 1.

(** ** Floating point: IEEE 754 binary64 *)

Definition prec64 : Z := 53.
Definition emax64 : Z := 1024.

Definition float64 : Type := spec_float.
(** [float64(n)] for an integer [n]: round to nearest, ties to even. *)
Definition float64_of_int (n : Z) : float64 :=
  binary_normalize prec64 emax64 n 0 false.
Definition float64_div (x y : float64) : float64 := SFdiv prec64 emax64 x y.
Definition float64_leb (x y : float64) : bool := SFleb x y.

Definition float64_zero : float64 := S754_zero false.
Definition float64_one : float64 := S754_finite false (2 ^ 52) (-52).

(** ** Store, slices and the execution monad *)

Definition bytes : Type := list byte.

(** A slice of [uint64] is the address of its backing array; its length is
    the length of that array.  An address with no array behaves as the nil
    slice (length 0). *)
Definition slice : Type := positive.

Record store : Type := Store {
  heap : gmap positive (list Z);
  (** arguments of the calls made to a hash function so far, oldest first *)
  hash_calls : list bytes
}.

Definition contents (st : store) (s : slice) : list Z :=
  default [] (heap st !! s).

Definition set_heap (st : store) (h : gmap positive (list Z)) : store :=
  {| heap := h; hash_calls := hash_calls st |}.

Inductive panic : Type :=
  | IndexOutOfRange (i : nat) (len : nat)
  | MakesliceLenOutOfRange.

Inductive outcome (A : Type) : Type :=
  | Done (a : A)
  | Panicked (p : panic).
Arguments Done {A} a.
Arguments Panicked {A} p.

Definition go (A : Type) : Type := store -> outcome A * store.

Definition ret {A} (a : A) : go A := fun st => (Done a, st).
Definition throw {A} (p : panic) : go A := fun st => (Panicked p, st).
Definition bind {A B} (c : go A) (k : A -> go B) : go B :=
  fun st =>
    match c st with
    | (Done a, st') => k a st'
    | (Panicked p, st') => (Panicked p, st')
    end.

Notation "'let*' x := c 'in' k" := (bind c (fun x => k))
  (at level 10, x name, c at level 100, k at level 200).
Notation "c >> k" := (bind c (fun _ => k))
  (at level 100, k at level 200, right associativity).

(** [len(s)] *)
Definition slice_len (s : slice) : go nat :=
  fun st => (Done (length (contents st s)), st).

(** [s[i]] as an expression *)
Definition slice_get (s : slice) (i : nat) : go Z :=
  fun st =>
    match contents st s !! i with
    | Some v => (Done v, st)
    | None => (Panicked (IndexOutOfRange i (length (contents st s))), st)
    end.

(** [s[i] = v] *)
Definition slice_set (s : slice) (i : nat) (v : Z) : go unit :=
  fun st =>
    if decide (i < length (contents st s))%nat
    then (Done tt, set_heap st (<[s := <[i := v]> (contents st s)]> (heap st)))
    else (Panicked (IndexOutOfRange i (length (contents st s))), st).

(** [make([]uint64, n)]: a fresh zeroed array. *)
Definition make (n : nat) : go slice :=
  fun st =>
    let l := fresh (dom (heap st)) in
    (Done l, set_heap st (<[l := replicate n 0]> (heap st))).

(** [copy(dst, src)]: copies [min(len(dst), len(src))] elements. *)
Definition slice_copy (dst src : slice) : go nat :=
  fun st =>
    let d := contents st dst in
    let s := contents st src in
    let k := Nat.min (length d) (length s) in
    match heap st !! dst with
    | Some _ => (Done k, set_heap st (<[dst := take k s ++ drop k d]> (heap st)))
    | None => (Done k, st)
    end.

(** A [for ... range] loop body run once per element of [l], in order. *)
Fixpoint for_each {A} (body : A -> go unit) (l : list A) : go unit :=
  match l with
  | [] => ret tt
  | a :: l' => body a >> for_each body l'
  end.

(** The same with a local variable carried through the iterations. *)
Fixpoint for_fold {A B} (body : B -> A -> go B) (acc : B) (l : list A) : go B :=
  match l with
  | [] => ret acc
  | a :: l' => let* acc' := body acc a in for_fold body acc' l'
  end.

(** [for i := range s]: the length is read once, before the first iteration. *)
Definition range (s : slice) : go (list nat) :=
  let* n := slice_len s in ret (seq 0 n).

(** ** The package *)

Inductive error : Type := ErrSigSizeMismatch.

Definition HashFunc : Type := bytes -> Z * Z.

Record Minhash : Type := {
  sig : slice;
  hashFunc : HashFunc
}.

(** Calling a hash function: a pure function of its argument, the call is
    recorded in the store. *)
Definition call_hash (f : HashFunc) (b : bytes) : go (Z * Z) :=
  fun st => (Done (f b), {| heap := heap st; hash_calls := hash_calls st ++ [b] |}).

Definition NewMinhash (hashFunc : HashFunc) (size : Z) : go Minhash :=
  if size <? 0 then throw MakesliceLenOutOfRange else
  let* sig := make (Z.to_nat size) in
  let* idx := range sig in
  for_each (fun i => slice_set sig i (not64 0)) idx >>
  ret {| sig := sig; hashFunc := hashFunc |}.

Definition NewMinhashFromSigs (hashFunc : HashFunc) (existingSig : slice) : go Minhash :=
  let* n := slice_len existingSig in
  let* sig := make n in
  slice_copy sig existingSig >>
  ret {| sig := sig; hashFunc := hashFunc |}.

Definition Push (m : Minhash) (b : bytes) : go unit :=
  let* v := call_hash (hashFunc m) b in
  let '(v1, v2) := v in
  let* idx := range (sig m) in
  for_each (fun i =>
    let* hashVal := slice_get (sig m) i in
    let newHashVal := add64 v1 (mul64 (uint64 (Z.of_nat i)) v2) in
    if newHashVal <? hashVal then slice_set (sig m) i newHashVal else ret tt) idx.

Definition PushAll (m : Minhash) (bb : list bytes) : go unit :=
  for_each (fun b => Push m b) bb.

Definition PushStrings (m : Minhash) (ss : list string) : go unit :=
  for_each (fun r => Push m (list_byte_of_string r)) ss.

Definition Merge (m other : Minhash) : go unit :=
  let* idx := range (sig other) in
  for_each (fun i =>
    let* v := slice_get (sig other) i in
    let* cur := slice_get (sig m) i in
    if v <? cur then slice_set (sig m) i v else ret tt) idx.

Definition Signature (m : Minhash) : go slice := ret (sig m).

Definition Similarity (m other : Minhash) : go (float64 * option error) :=
  let* n := slice_len (sig m) in
  let* n' := slice_len (sig other) in
  if negb (n =? n')%nat then ret (float64_of_int 0, Some ErrSigSizeMismatch) else
  let* idx := range (sig m) in
  let* intersect := for_fold (fun intersect i =>
    let* x := slice_get (sig m) i in
    let* y := slice_get (sig other) i in
    if x =? y then ret (intersect + 1) else ret intersect) 0 idx in
  let* n := slice_len (sig m) in
  ret (float64_div (float64_of_int intersect) (float64_of_int (Z.of_nat n)), None).

(** ** What the operations compute

    Pure descriptions of the signature and of the store each operation
    leaves behind; the lemmas below relate them to the code. *)

(** The simulated i-th hash value of an element hashed to [(v1, v2)]. *)
Definition slot_hash (v : Z * Z) (i : nat) : Z :=
  add64 v.1 (mul64 (uint64 (Z.of_nat i)) v.2).

(** What [Push] leaves in slot [i], which held [x]. *)
Definition push_slot (v : Z * Z) (i : nat) (x : Z) : Z :=
  if slot_hash v i <? x then slot_hash v i else x.

Definition push_sig (v : Z * Z) (sg : list Z) : list Z := imap (push_slot v) sg.

(** The store after [Push m b]. *)
Definition push_store (m : Minhash) (b : bytes) (st : store) : store :=
  {| heap := alter (push_sig (hashFunc m b)) (sig m) (heap st);
     hash_calls := hash_calls st ++ [b] |}.

(** The store after [NewMinhash _ size], for [0 <= size]: a fresh array of
    [size] slots, all at the maximum. *)
Definition new_store (size : Z) (st : store) : store :=
  set_heap st (<[fresh (dom (heap st)) := replicate (Z.to_nat size) max_uint64]> (heap st)).

(** What [Merge] leaves in the receiver's slot [i], which held [x], given
    the other signature [o]. *)
Definition merge_slot (o : list Z) (i : nat) (x : Z) : Z :=
  match o !! i with
  | Some v => if v <? x then v else x
  | None => x
  end.

Definition merge_sig (o mine : list Z) : list Z := imap (merge_slot o) mine.

(** The store [Merge m other] leaves behind, whether it returns or panics. *)
Definition merge_store (m other : Minhash) (st : store) : store :=
  set_heap st (alter (merge_sig (contents st (sig other))) (sig m) (heap st)).

(** One iteration of the loop of [Merge]. *)
Definition Merge_body (m other : Minhash) (i : nat) : go unit :=
  let* v := slice_get (sig other) i in
  let* cur := slice_get (sig m) i in
  if v <? cur then slice_set (sig m) i v else ret tt.

(** The number of slot indices at which two signatures hold equal values. *)
Definition equal_slots (xs ys : list Z) : nat :=
  length (filter (fun i => xs !! i = ys !! i) (seq 0 (length xs))).

(** One iteration of the loop of [Similarity]. *)
Definition Similarity_body (m other : Minhash) (intersect : Z) (i : nat) : go Z :=
  let* x := slice_get (sig m) i in
  let* y := slice_get (sig other) i in
  if x =? y then ret (intersect + 1) else ret intersect.

(** The store after [PushAll m bb]. *)
Definition pushall_store (m : Minhash) (bb : list bytes) (st : store) : store :=
  foldl (fun s b => push_store m b s) st bb.

(** The signature after pushing the elements of [bb] one after the other. *)
Definition pushall_sig (hf : HashFunc) (bb : list bytes) (sg : list Z) : list Z :=
  foldl (fun s b => push_sig (hf b) s) sg bb.

(** Calling [Push] once per element, in order; a call that panics ends the
    sequence. *)
Definition push_sequentially (m : Minhash) (bb : list bytes) (st : store)
  : outcome unit * store :=
  foldl (fun r b =>
           match r with
           | (Done _, s) => Push m b s
           | (Panicked p, s) => (Panicked p, s)
           end) (Done tt, st) bb.

(** ** Rounding to 53 binary digits *)

(** A positive 53-digit float [m * 2^e] that is at most [1.0]. *)
Definition float64_le_one (m : positive) (e : Z) : Prop :=
  e < -52 \/ (e = -52 /\ m = (2 ^ 52)%positive).

(** Round to nearest, ties to even, of [p / 2^j]. *)
Definition round_shift (p : Z) (j : nat) : Z :=
  let m := p / 2 ^ Z.of_nat j in
  let rem := p mod 2 ^ Z.of_nat j in
  m + (if (2 ^ Z.of_nat j <=? 2 * rem) &&
          (negb (2 * rem =? 2 ^ Z.of_nat j) || Z.odd m)
       then 1 else 0).

(** The integer [float64(p)] stands for: [p] itself up to 53 digits, [p]
    rounded to 53 digits beyond. *)
Definition rounded_int (p : positive) : Z :=
  let d := Z.pos (digits2_pos p) in
  if d <=? 53 then Z.pos p
  else round_shift (Z.pos p) (Z.to_nat (d - 53)) * 2 ^ (d - 53).

(** ** Concrete engines and stores *)

Definition store0 : store := {| heap := ∅; hash_calls := [] |}.

(** A two-output hash function for concrete runs. *)
Definition hash0 : HashFunc :=
  fun b => (Z.of_nat (length b) * 1000, 2 ^ 63 + 5).

(** Two engines with their own arrays, at addresses 1 and 2. *)
Definition engine1 : Minhash := {| sig := 1%positive; hashFunc := hash0 |}.
Definition engine2 : Minhash := {| sig := 2%positive; hashFunc := hash0 |}.
Definition store12 (a b : list Z) : store :=
  {| heap := <[1%positive := a]> (<[2%positive := b]> ∅); hash_calls := [] |}.

(** ** Slot minima and the range of the slots *)

(** What a run of pushes leaves in slot [i], which held [x]. *)
Definition slot_after (hf : HashFunc) (bb : list bytes) (i : nat) (x : Z) : Z :=
  foldl (fun y b => push_slot (hf b) i y) x bb.

(** Every stored slot is a [uint64]. *)
Definition uint64_ok (st : store) : Prop :=
  forall (l : slice) (a : list Z),
    heap st !! l = Some a -> Forall (fun x => 0 <= x < 2 ^ 64) a.

(** [0.5] *)
Definition float64_half : float64 := S754_finite false (2 ^ 52) (-53).

(** ** The test helper (minhash_test.go) *)

(** The word lists and the tables of expected signatures of the test file. *)
Definition sentenceOne : list string :=
  ["it"; "was"; "the"; "best"; "of"; "times";
   "it"; "was"; "the"; "worst"; "of"; "times"]%string.
Definition sentenceTwo : list string :=
  ["twas"; "the"; "best"; "of"; "times";
   "twas"; "the"; "blurst"; "of"; "times"]%string.

Definition expectedFromOneHashA : list Z * list Z :=
  ([248687575117317545; 2049998094026730544; 765690271520631217;
    5166404819947994582; 1194772720553424969; 2646378093565509457;
    642549248073078814; 137226539518554757],
   [1393834836782072322; 2049998094026730544; 3368748946450498991;
    6654035784550370743; 1194772720553424969; 2646378093565509457;
    642549248073078814; 339547347080119394]).

Definition expectedFromOneHashB : list Z * list Z :=
  ([260238615480509520; 1483783405500556756; 2171411139035205116;
    3930872985540651228; 1952832785009616865; 6377962565580745700;
    730155147010689028; 3211658695656942387],
   [4287877928842720490; 4063838249034338438; 2171411139035205116;
    884995736121811762; 1952832785009616865; 9498231353857803716;
    730155147010689028; 3211658695656942387]).

Definition expectedFromTwoHashes : list Z * list Z :=
  ([248687575117317545; 1024286465335649203; 2794534105003552036;
    775288689001785297; 4218713743468478472; 41033537384652751;
    51622472557045086; 311861088037554606],
   [8766980652033501079; 1024286465335649203; 2794534105003552036;
    775288689001785297; 1533108964028516867; 41033537384652751;
    1499301746664882380; 46143406790770579]).

(** How a run of the helper ends: it returns the similarity, [t.Fatalf]
    stops it at a signature mismatch, or it panics with the error of
    [Similarity]. *)
Inductive test_end : Type :=
  | TestReturns (sim : float64)
  | TestFatal (item : nat) (expectedVal sigVal : Z)
  | TestPanicErr (err : error).

(** [expected[i]] on a table of the test file. *)
Definition table_get (expected : list Z) (i : nat) : go Z :=
  fun st =>
    match expected !! i with
    | Some v => (Done v, st)
    | None => (Panicked (IndexOutOfRange i (length expected)), st)
    end.

(** The loop comparing a signature with its table; it ends at the first
    mismatch. *)
Fixpoint check_from (s : slice) (expected : list Z) (idx : list nat)
  : go (option (nat * Z * Z)) :=
  match idx with
  | [] => ret None
  | i :: idx' =>
      let* sigVal := slice_get s i in
      let* expectedVal := table_get expected i in
      if negb (sigVal =? expectedVal) then ret (Some (i, expectedVal, sigVal))
      else check_from s expected idx'
  end.

(** [for i, sigVal := range m.sig { ... }] of the helper. *)
Definition check_sig (s : slice) (expected : list Z) : go (option (nat * Z * Z)) :=
  let* idx := range s in check_from s expected idx.

(** [doTestAndGetSimilarity(hashFunc, expected, t)]: [expected] is the pair
    of tables [expected[0]], [expected[1]]; the testing handle [t] only stops
    the run, which is the [TestFatal] end. *)
Definition doTestAndGetSimilarity (hashFunc : HashFunc) (expected : list Z * list Z)
  : go test_end :=
  let* m1 := NewMinhash hashFunc (Z.of_nat (length expected.1)) in
  let* m2 := NewMinhash hashFunc (Z.of_nat (length expected.2)) in
  PushStrings m1 sentenceOne >>
  PushStrings m2 sentenceTwo >>
  let* c1 := check_sig (sig m1) expected.1 in
  match c1 with
  | Some (i, expectedVal, sigVal) => ret (TestFatal i expectedVal sigVal)
  | None =>
      let* c2 := check_sig (sig m2) expected.2 in
      match c2 with
      | Some (i, expectedVal, sigVal) => ret (TestFatal i expectedVal sigVal)
      | None =>
          let* r := Similarity m1 m2 in
          match r with
          | (result, None) => ret (TestReturns result)
          | (_, Some err) => ret (TestPanicErr err)
          end
      end
  end.

(** The first index at which a signature differs from its table. *)
Fixpoint first_mismatch (i : nat) (a e : list Z) : option (nat * Z * Z) :=
  match a, e with
  | x :: a', y :: e' =>
      if negb (x =? y) then Some (i, y, x) else first_mismatch (S i) a' e'
  | _, _ => None
  end.

(** The signature of a fresh engine of [n] slots after pushing [ss]. *)
Definition signature_of (hf : HashFunc) (n : nat) (ss : list string) : list Z :=
  pushall_sig hf (list_byte_of_string <$> ss) (replicate n max_uint64).

(** What the helper ends with, read off the two signatures and the tables. *)
Definition doTest_result (hf : HashFunc) (expected : list Z * list Z) : test_end :=
  let s1 := signature_of hf (length expected.1) sentenceOne in
  let s2 := signature_of hf (length expected.2) sentenceTwo in
  match first_mismatch 0 s1 expected.1 with
  | Some (i, expectedVal, sigVal) => TestFatal i expectedVal sigVal
  | None =>
      match first_mismatch 0 s2 expected.2 with
      | Some (i, expectedVal, sigVal) => TestFatal i expectedVal sigVal
      | None =>
          if decide (length s1 = length s2)
          then TestReturns
                 (float64_div (float64_of_int (Z.of_nat (equal_slots s1 s2)))
                              (float64_of_int (Z.of_nat (length s1))))
          else TestPanicErr ErrSigSizeMismatch
      end
  end.

(** ** Reasoning about the monad and the store *)

Lemma bind_done {A B} (c : go A) (k : A -> go B) st a st' :
  c st = (Done a, st') -> bind c k st = k a st'.
Proof. intros H. unfold bind. now rewrite H. Qed.

Lemma bind_panicked {A B} (c : go A) (k : A -> go B) st p st' :
  c st = (Panicked p, st') -> bind c k st = (Panicked p, st').
Proof. intros H. unfold bind. now rewrite H. Qed.

Lemma set_heap_id st l a :
  heap st !! l = Some a -> set_heap st (<[l := a]> (heap st)) = st.
Proof.
  intros H. destruct st as [h c]. unfold set_heap. simpl in *.
  f_equal. now apply insert_id.
Qed.

Lemma set_heap_set_heap st h1 h2 : set_heap (set_heap st h1) h2 = set_heap st h2.
Proof. reflexivity. Qed.

Lemma contents_Some st l a : heap st !! l = Some a -> contents st l = a.
Proof. intros H. unfold contents. now rewrite H. Qed.

Lemma contents_set_heap_eq st l a :
  contents (set_heap st (<[l := a]> (heap st))) l = a.
Proof. unfold contents. simpl. now rewrite lookup_insert_eq. Qed.

Lemma contents_set_heap_ne st l l' a :
  l <> l' -> contents (set_heap st (<[l := a]> (heap st))) l' = contents st l'.
Proof. intros H. unfold contents. simpl. now rewrite lookup_insert_ne. Qed.

Lemma for_each_app {A} (body : A -> go unit) l1 l2 st :
  for_each body (l1 ++ l2) st = (for_each body l1 >> for_each body l2) st.
Proof.
  revert st. induction l1 as [|a l1 IH]; intros st; simpl.
  - reflexivity.
  - unfold bind in *. destruct (body a st) as [[[]|p] st1]; [|reflexivity].
    apply IH.
Qed.

(** A loop whose body leaves the store alone leaves the store alone. *)
Lemma for_each_skip {A} (body : A -> go unit) l st :
  (forall a, a ∈ l -> body a st = (Done tt, st)) ->
  for_each body l st = (Done tt, st).
Proof.
  induction l as [|a l IH]; intros H; simpl; [reflexivity|].
  rewrite (bind_done _ _ st tt st).
  - apply IH. intros a' Ha'. apply H. now right.
  - apply H. now left.
Qed.

(** A loop over the indices of the array at [l] whose body rewrites slot [i]
  to [f i x], where [x] is the value found there. *)
Section slot_loop.
Variables (l : slice) (f : nat -> Z -> Z) (body : nat -> go unit).
Variables (I : store -> Prop) (bound : nat).
Hypothesis I_stable :
  forall st a, I st -> I (set_heap st (<[l := a]> (heap st))).
Hypothesis body_step :
  forall st pre x post, I st -> (length pre < bound)%nat ->
    heap st !! l = Some (pre ++ x :: post) ->
    body (length pre) st =
      (Done tt, set_heap st (<[l := pre ++ f (length pre) x :: post]> (heap st))).

Lemma for_each_slots mid : forall pre rest st,
  I st -> (length pre + length mid <= bound)%nat ->
  heap st !! l = Some (pre ++ mid ++ rest) ->
  for_each body (seq (length pre) (length mid)) st =
    (Done tt,
     set_heap st
       (<[l := pre ++ imap (fun j => f (length pre + j)) mid ++ rest]> (heap st))).
Proof.
  induction mid as [|x mid IH]; intros pre rest st HI Hb Hl; simpl.
  - now rewrite set_heap_id.
  - simpl in Hb.
    rewrite (bind_done _ _ _ _ _ (body_step st pre x (mid ++ rest) HI ltac:(lia) Hl)).
    set (y := f (length pre) x).
    set (st1 := set_heap st _).
    assert (Hlen : S (length pre) = length (pre ++ [y])).
    { rewrite length_app. simpl. lia. }
    rewrite Hlen.
    rewrite (IH (pre ++ [y]) rest st1).
    + f_equal. subst st1. rewrite set_heap_set_heap. simpl.
      rewrite insert_insert_eq.
      match goal with
      | |- set_heap _ (<[_ := ?a]> _) = set_heap _ (<[_ := ?b]> _) =>
          assert (a = b) as ->; [|reflexivity]
      end.
      rewrite <- app_assoc. simpl.
      replace (length pre + 0)%nat with (length pre) by lia.
      fold y. do 3 f_equal.
      apply imap_ext. intros j z _. simpl. f_equal. rewrite <- Hlen. lia.
    + subst st1. now apply I_stable.
    + rewrite <- Hlen. lia.
    + subst st1. simpl. rewrite lookup_insert_eq. now rewrite <- app_assoc.
Qed.
End slot_loop.

Lemma insert_middle {A} (pre : list A) x v post :
  <[length pre := v]> (pre ++ x :: post) = pre ++ v :: post.
Proof.
  replace (length pre) with (length pre + 0)%nat by lia.
  now rewrite insert_app_r.
Qed.

Lemma slice_get_middle st l pre x post :
  heap st !! l = Some (pre ++ x :: post) ->
  slice_get l (length pre) st = (Done x, st).
Proof.
  intros H. unfold slice_get. rewrite (contents_Some _ _ _ H).
  now rewrite list_lookup_middle.
Qed.

Lemma slice_set_middle st l pre x post v :
  heap st !! l = Some (pre ++ x :: post) ->
  slice_set l (length pre) v st =
    (Done tt, set_heap st (<[l := pre ++ v :: post]> (heap st))).
Proof.
  intros H. unfold slice_set. rewrite (contents_Some _ _ _ H).
  rewrite insert_middle.
  destruct (decide _) as [_|Hn]; [reflexivity|].
  exfalso. apply Hn. rewrite length_app. simpl. lia.
Qed.

Lemma slice_get_oob st l i :
  (length (contents st l) <= i)%nat ->
  slice_get l i st = (Panicked (IndexOutOfRange i (length (contents st l))), st).
Proof.
  intros H. unfold slice_get. now rewrite (lookup_ge_None_2 _ _ H).
Qed.

Lemma range_run s st : range s st = (Done (seq 0 (length (contents st s))), st).
Proof. reflexivity. Qed.

Lemma slice_len_run s st : slice_len s st = (Done (length (contents st s)), st).
Proof. reflexivity. Qed.

Lemma alter_present (f : list Z -> list Z) (h : gmap positive (list Z)) l a :
  h !! l = Some a -> alter f l h = <[l := f a]> h.
Proof.
  intros H. apply map_eq. intros k.
  destruct (decide (l = k)) as [<-|Hne].
  - now rewrite lookup_alter_eq, lookup_insert_eq, H.
  - now rewrite lookup_alter_ne, lookup_insert_ne.
Qed.

Lemma alter_absent (f : list Z -> list Z) (h : gmap positive (list Z)) l :
  h !! l = None -> alter f l h = h.
Proof.
  intros H. apply map_eq. intros k.
  destruct (decide (l = k)) as [<-|Hne].
  - now rewrite lookup_alter_eq, H.
  - now rewrite lookup_alter_ne.
Qed.

(** What altering one array does to the contents of every slice, for a
    function that maps the empty array to itself. *)
Lemma contents_alter (f : list Z -> list Z) h c l l' :
  f [] = [] ->
  contents {| heap := alter f l h; hash_calls := c |} l' =
    if decide (l = l') then f (contents {| heap := h; hash_calls := c |} l')
    else contents {| heap := h; hash_calls := c |} l'.
Proof.
  intros Hf. unfold contents. simpl.
  destruct (decide (l = l')) as [<-|Hne].
  - rewrite lookup_alter_eq. destruct (h !! l); simpl; congruence.
  - now rewrite lookup_alter_ne.
Qed.

(** ** Push *)

Lemma slot_hash_mod v i : slot_hash v i = (v.1 + Z.of_nat i * v.2) mod 2 ^ 64.
Proof.
  unfold slot_hash, add64, mul64, uint64.
  rewrite Z.mul_mod_idemp_l by lia.
  now rewrite Z.add_mod_idemp_r by lia.
Qed.

Lemma push_slot_min v i x : push_slot v i x = Z.min x (slot_hash v i).
Proof. unfold push_slot. destruct (Z.ltb_spec (slot_hash v i) x); lia. Qed.

Lemma Push_run m b st : Push m b st = (Done tt, push_store m b st).
Proof.
  unfold Push, push_store.
  set (st1 := {| heap := heap st; hash_calls := hash_calls st ++ [b] |}).
  rewrite (bind_done _ _ st (hashFunc m b) st1) by reflexivity.
  destruct (hashFunc m b) as [v1 v2] eqn:Hv. cbv beta iota.
  rewrite (bind_done _ _ _ _ _ (range_run (sig m) st1)).
  destruct (heap st !! sig m) as [a|] eqn:Ha.
  - assert (Ha1 : heap st1 !! sig m = Some ([] ++ a ++ [])).
    { simpl. now rewrite app_nil_r. }
    rewrite (contents_Some st1 (sig m) a) by exact Ha.
    match goal with |- context [for_each ?bd _] => set (body := bd) end.
    assert (Hbody : forall st' pre x post, True -> (length pre < length a)%nat ->
      heap st' !! sig m = Some (pre ++ x :: post) ->
      body (length pre) st' =
        (Done tt, set_heap st'
           (<[sig m := pre ++ push_slot (v1, v2) (length pre) x :: post]> (heap st')))).
    { intros st' pre x post _ _ Hl. subst body. cbv beta.
      rewrite (bind_done _ _ _ _ _ (slice_get_middle _ _ _ _ _ Hl)).
      change (add64 v1 (mul64 (uint64 (Z.of_nat (length pre))) v2))
        with (slot_hash (v1, v2) (length pre)).
      unfold push_slot.
      destruct (slot_hash (v1, v2) (length pre) <? x).
      - now apply (slice_set_middle _ _ _ x).
      - unfold ret. now rewrite set_heap_id. }
    pose proof (for_each_slots (sig m) (push_slot (v1, v2)) body (fun _ => True)
                  (length a) (fun _ _ _ => I) Hbody a [] [] st1 I
                  ltac:(simpl; lia) Ha1) as Hloop.
    simpl in Hloop. rewrite Hloop.
    rewrite (alter_present _ _ _ a Ha). unfold set_heap, push_sig. simpl.
    now rewrite app_nil_r.
  - unfold contents. simpl. rewrite Ha. simpl.
    now rewrite (alter_absent _ _ _ Ha).
Qed.

Lemma contents_push_store m b st l :
  contents (push_store m b st) l =
    if decide (sig m = l) then push_sig (hashFunc m b) (contents st l)
    else contents st l.
Proof.
  unfold push_store. rewrite contents_alter by reflexivity.
  destruct st; reflexivity.
Qed.

(** ** Construction *)

Lemma fresh_unallocated (h : gmap positive (list Z)) : h !! fresh (dom h) = None.
Proof. apply not_elem_of_dom. apply is_fresh. Qed.

Lemma imap_const_replicate (c : Z) (a : list Z) :
  imap (fun _ _ => c) a = replicate (length a) c.
Proof.
  apply list_eq. intros i. rewrite list_lookup_imap.
  destruct (a !! i) as [x|] eqn:Hx; simpl.
  - symmetry. apply lookup_replicate_2. now apply lookup_lt_Some in Hx.
  - symmetry. apply lookup_replicate_None. now apply lookup_ge_None in Hx.
Qed.

Lemma not64_0 : not64 0 = max_uint64.
Proof. reflexivity. Qed.

Lemma NewMinhash_run hf size st :
  0 <= size ->
  NewMinhash hf size st =
    (Done {| sig := fresh (dom (heap st)); hashFunc := hf |}, new_store size st).
Proof.
  intros Hs. unfold NewMinhash, new_store.
  destruct (Z.ltb_spec size 0) as [?|_]; [lia|].
  set (l := fresh (dom (heap st))). set (n := Z.to_nat size).
  set (st1 := set_heap st (<[l := replicate n 0]> (heap st))).
  rewrite (bind_done _ _ st l st1) by reflexivity.
  assert (Hl : heap st1 !! l = Some ([] ++ replicate n 0 ++ [])).
  { simpl. now rewrite lookup_insert_eq, app_nil_r. }
  rewrite (bind_done _ _ _ _ _ (range_run l st1)).
  assert (Hc : contents st1 l = replicate n 0).
  { unfold contents. rewrite Hl. simpl. now rewrite app_nil_r. }
  rewrite Hc.
  pose proof (for_each_slots l (fun _ _ => not64 0)
                (fun i => slice_set l i (not64 0)) (fun _ => True)
                (length (replicate n 0)) (fun _ _ _ => I)
                (fun st' pre x post _ _ H => slice_set_middle st' l pre x post _ H)
                (replicate n 0) [] [] st1 I ltac:(simpl; lia) Hl) as Hloop.
  cbn [length app] in Hloop. rewrite length_replicate in *.
  rewrite (bind_done _ _ _ _ _ Hloop). unfold ret. f_equal.
  subst st1. rewrite set_heap_set_heap. simpl. rewrite insert_insert_eq.
  rewrite app_nil_r, imap_const_replicate, length_replicate.
  now rewrite not64_0.
Qed.

Lemma NewMinhash_negative hf size st :
  size < 0 -> NewMinhash hf size st = (Panicked MakesliceLenOutOfRange, st).
Proof.
  intros Hs. unfold NewMinhash. now destruct (Z.ltb_spec size 0) as [_|?]; [|lia].
Qed.

Lemma contents_new_store_eq size st :
  contents (new_store size st) (fresh (dom (heap st))) =
    replicate (Z.to_nat size) max_uint64.
Proof. apply contents_set_heap_eq. Qed.

Lemma contents_new_store_ne size st l :
  is_Some (heap st !! l) -> contents (new_store size st) l = contents st l.
Proof.
  intros [a Ha]. apply contents_set_heap_ne. intros <-.
  rewrite fresh_unallocated in Ha. discriminate.
Qed.

Lemma NewMinhashFromSigs_run hf existingSig st :
  NewMinhashFromSigs hf existingSig st =
    (Done {| sig := fresh (dom (heap st)); hashFunc := hf |},
     set_heap st (<[fresh (dom (heap st)) := contents st existingSig]> (heap st))).
Proof.
  unfold NewMinhashFromSigs.
  set (l := fresh (dom (heap st))). set (src := contents st existingSig).
  set (st1 := set_heap st (<[l := replicate (length src) 0]> (heap st))).
  rewrite (bind_done _ _ st (length src) st) by reflexivity.
  rewrite (bind_done _ _ st l st1) by reflexivity.
  assert (Hsrc : contents st1 existingSig = src).
  { destruct (decide (l = existingSig)) as [<-|Hne].
    - subst st1 src. rewrite contents_set_heap_eq.
      unfold contents. subst l. now rewrite fresh_unallocated.
    - subst st1. now rewrite contents_set_heap_ne. }
  assert (Hcopy : slice_copy l existingSig st1 =
            (Done (length src), set_heap st (<[l := src]> (heap st)))).
  { unfold slice_copy. rewrite Hsrc.
    replace (contents st1 l) with (replicate (length src) 0)
      by (subst st1; now rewrite contents_set_heap_eq).
    rewrite length_replicate, Nat.min_id.
    subst st1. simpl. rewrite lookup_insert_eq, insert_insert_eq.
    rewrite firstn_all.
    rewrite drop_ge by (rewrite length_replicate; lia).
    now rewrite app_nil_r. }
  now rewrite (bind_done _ _ _ _ _ Hcopy).
Qed.

(** ** Merge *)

Lemma merge_sig_self a : merge_sig a a = a.
Proof.
  apply list_eq. intros i. unfold merge_sig, merge_slot.
  rewrite list_lookup_imap. destruct (a !! i) as [x|]; simpl; [|reflexivity].
  now rewrite Z.ltb_irrefl.
Qed.

Lemma merge_sig_prefix o a k :
  (length o <= k)%nat -> (k <= length a)%nat ->
  imap (merge_slot o) (take k a) ++ drop k a = merge_sig o a.
Proof.
  intros Hk Hka. apply list_eq. intros i. unfold merge_sig.
  assert (Ht : length (take k a) = k) by (rewrite length_take; lia).
  rewrite list_lookup_imap.
  destruct (decide (i < k)%nat) as [Hi|Hi].
  - rewrite lookup_app_l by (rewrite length_imap; lia).
    rewrite list_lookup_imap. now rewrite lookup_take_lt.
  - rewrite lookup_app_r by (rewrite length_imap; lia).
    rewrite length_imap, lookup_drop, Ht.
    replace (k + (i - k))%nat with i by lia.
    destruct (a !! i) as [x|] eqn:Hx; simpl; [|reflexivity].
    unfold merge_slot. now rewrite (lookup_ge_None_2 o i) by lia.
Qed.

Lemma contents_merge_store m other st l :
  contents (merge_store m other st) l =
    if decide (sig m = l) then merge_sig (contents st (sig other)) (contents st l)
    else contents st l.
Proof.
  unfold merge_store, set_heap. rewrite contents_alter by reflexivity.
  destruct st; reflexivity.
Qed.

Lemma Merge_unfold m other st :
  Merge m other st =
    for_each (Merge_body m other) (seq 0 (length (contents st (sig other)))) st.
Proof. unfold Merge. now rewrite (bind_done _ _ _ _ _ (range_run _ st)). Qed.

(** The first [k] iterations, when the two engines have different arrays. *)
Lemma Merge_prefix m other st a k :
  sig m <> sig other ->
  heap st !! sig m = Some a ->
  (k <= length a)%nat -> (k <= length (contents st (sig other)))%nat ->
  for_each (Merge_body m other) (seq 0 k) st =
    (Done tt,
     set_heap st
       (<[sig m := imap (merge_slot (contents st (sig other))) (take k a) ++ drop k a]>
          (heap st))).
Proof.
  intros Hne Ha Hka Hko. set (o := contents st (sig other)) in *.
  assert (Hbody : forall st' pre x post,
    contents st' (sig other) = o -> (length pre < length o)%nat ->
    heap st' !! sig m = Some (pre ++ x :: post) ->
    Merge_body m other (length pre) st' =
      (Done tt, set_heap st'
         (<[sig m := pre ++ merge_slot o (length pre) x :: post]> (heap st')))).
  { intros st' pre x post Ho Hlt Hl. unfold Merge_body, merge_slot.
    destruct (lookup_lt_is_Some_2 o (length pre) Hlt) as [v Hv].
    assert (Hg : slice_get (sig other) (length pre) st' = (Done v, st')).
    { unfold slice_get. now rewrite Ho, Hv. }
    rewrite (bind_done _ _ _ _ _ Hg).
    rewrite (bind_done _ _ _ _ _ (slice_get_middle _ _ _ _ _ Hl)).
    rewrite Hv. destruct (v <? x).
    - now apply (slice_set_middle _ _ _ x).
    - unfold ret. now rewrite set_heap_id. }
  assert (Hstable : forall st' a', contents st' (sig other) = o ->
    contents (set_heap st' (<[sig m := a']> (heap st'))) (sig other) = o).
  { intros st' a' Ho. now rewrite contents_set_heap_ne. }
  assert (Hl : heap st !! sig m = Some ([] ++ take k a ++ drop k a)).
  { simpl. now rewrite take_drop. }
  pose proof (for_each_slots (sig m) (merge_slot o) (Merge_body m other)
                (fun st' => contents st' (sig other) = o) (length o)
                Hstable Hbody (take k a) [] (drop k a) st eq_refl
                ltac:(simpl; rewrite length_take; lia) Hl) as Hloop.
  cbn [length app] in Hloop. rewrite length_take in Hloop.
  replace (Nat.min k (length a)) with k in Hloop by lia.
  exact Hloop.
Qed.

Lemma Merge_run m other st :
  (length (contents st (sig other)) <= length (contents st (sig m)))%nat ->
  Merge m other st = (Done tt, merge_store m other st).
Proof.
  intros Hlen. rewrite Merge_unfold. unfold merge_store.
  destruct (decide (sig m = sig other)) as [Heq|Hne].
  - (* the receiver merged into itself: no slot is ever smaller than itself *)
    rewrite for_each_skip.
    + f_equal. rewrite Heq.
      destruct (heap st !! sig other) as [a|] eqn:Ha.
      * rewrite (alter_present _ _ _ a Ha), (contents_Some _ _ _ Ha).
        rewrite merge_sig_self. now rewrite set_heap_id.
      * rewrite (alter_absent _ _ _ Ha). now destruct st.
    + intros i Hi. apply elem_of_seq in Hi.
      destruct (lookup_lt_is_Some_2 (contents st (sig other)) i ltac:(lia)) as [v Hv].
      unfold Merge_body. rewrite Heq.
      assert (Hg : slice_get (sig other) i st = (Done v, st)).
      { unfold slice_get. now rewrite Hv. }
      rewrite !(bind_done _ _ _ _ _ Hg). now rewrite Z.ltb_irrefl.
  - destruct (heap st !! sig m) as [a|] eqn:Ha.
    + rewrite (contents_Some _ _ _ Ha) in Hlen.
      rewrite (Merge_prefix m other st a _ Hne Ha Hlen (le_n _)).
      rewrite merge_sig_prefix by lia.
      now rewrite (alter_present _ _ _ a Ha).
    + unfold contents at 2 in Hlen. rewrite Ha in Hlen. simpl in Hlen.
      replace (length (contents st (sig other))) with 0%nat by lia. simpl.
      rewrite (alter_absent _ _ _ Ha). unfold ret. now destruct st.
Qed.

(** When [other] is the longer one, the loop reaches index [len(m.sig)] and
    the read [m.sig[i]] there is out of range. *)
Lemma Merge_panics m other st :
  (length (contents st (sig m)) < length (contents st (sig other)))%nat ->
  Merge m other st =
    (Panicked (IndexOutOfRange (length (contents st (sig m)))
                               (length (contents st (sig m)))),
     merge_store m other st).
Proof.
  intros Hlen. rewrite Merge_unfold.
  set (n := length (contents st (sig m))) in *.
  set (o := contents st (sig other)) in *.
  assert (Hne : sig m <> sig other).
  { intros Heq. subst n o. rewrite Heq in Hlen. lia. }
  replace (length o) with (n + S (length o - S n))%nat by lia.
  rewrite seq_app, for_each_app. simpl.
  destruct (lookup_lt_is_Some_2 o n Hlen) as [v Hv].
  assert (Hstep : forall st', contents st' (sig other) = o ->
            length (contents st' (sig m)) = n ->
            Merge_body m other n st' = (Panicked (IndexOutOfRange n n), st')).
  { intros st' Ho Hn. unfold Merge_body.
    assert (Hg : slice_get (sig other) n st' = (Done v, st')).
    { unfold slice_get. now rewrite Ho, Hv. }
    rewrite (bind_done _ _ _ _ _ Hg).
    rewrite (bind_panicked _ _ st' (IndexOutOfRange n n) st'); [reflexivity|].
    rewrite slice_get_oob by lia. now rewrite Hn. }
  destruct (heap st !! sig m) as [a|] eqn:Ha.
  - assert (Hn : length a = n) by (subst n; now rewrite (contents_Some _ _ _ Ha)).
    rewrite (bind_done _ _ _ _ _
               (Merge_prefix m other st a n Hne Ha ltac:(lia) ltac:(fold o; lia))).
    fold o. rewrite <- Hn, firstn_all, drop_all, app_nil_r. rewrite Hn.
    fold (merge_sig o a). unfold merge_store. fold o.
    rewrite (alter_present _ _ _ a Ha).
    set (st1 := set_heap st (<[sig m := merge_sig o a]> (heap st))).
    rewrite (bind_panicked _ _ st1 (IndexOutOfRange n n) st1); [reflexivity|].
    apply Hstep; subst st1.
    + now rewrite contents_set_heap_ne.
    + rewrite contents_set_heap_eq. unfold merge_sig. now rewrite length_imap.
  - assert (Hn : n = 0%nat) by (subst n; unfold contents; now rewrite Ha).
    rewrite Hn in *. simpl.
    rewrite (bind_done _ _ st tt st) by reflexivity.
    unfold merge_store. rewrite (alter_absent _ _ _ Ha).
    replace (set_heap st (heap st)) with st by now destruct st.
    rewrite (bind_panicked _ _ st (IndexOutOfRange 0 0) st); [reflexivity|].
    now apply Hstep.
Qed.

(** ** Similarity *)

Lemma Similarity_loop m other st n : forall k acc,
  (k + n <= length (contents st (sig m)))%nat ->
  (k + n <= length (contents st (sig other)))%nat ->
  for_fold (Similarity_body m other) acc (seq k n) st =
    (Done (acc + Z.of_nat (length (filter
        (fun i => contents st (sig m) !! i = contents st (sig other) !! i)
        (seq k n)))), st).
Proof.
  induction n as [|n IH]; intros k acc Hm Ho; simpl.
  - unfold ret. now rewrite Z.add_0_r.
  - destruct (lookup_lt_is_Some_2 (contents st (sig m)) k ltac:(lia)) as [x Hx].
    destruct (lookup_lt_is_Some_2 (contents st (sig other)) k ltac:(lia)) as [y Hy].
    assert (Hstep : Similarity_body m other acc k st =
              (Done (if x =? y then acc + 1 else acc), st)).
    { unfold Similarity_body.
      rewrite (bind_done _ _ st x st) by (unfold slice_get; now rewrite Hx).
      rewrite (bind_done _ _ st y st) by (unfold slice_get; now rewrite Hy).
      now destruct (x =? y). }
    rewrite (bind_done _ _ _ _ _ Hstep).
    rewrite IH by lia. f_equal. f_equal.
    rewrite filter_cons, Hx, Hy.
    destruct (Z.eqb_spec x y) as [->|Hne].
    + rewrite decide_True by reflexivity. simpl. lia.
    + rewrite decide_False by congruence. lia.
Qed.

Lemma Similarity_mismatch m other st :
  length (contents st (sig m)) <> length (contents st (sig other)) ->
  Similarity m other st = (Done (float64_zero, Some ErrSigSizeMismatch), st).
Proof.
  intros Hne. unfold Similarity.
  rewrite (bind_done _ _ _ _ _ (slice_len_run (sig m) st)).
  rewrite (bind_done _ _ _ _ _ (slice_len_run (sig other) st)).
  destruct (Nat.eqb_spec (length (contents st (sig m)))
                         (length (contents st (sig other)))); [contradiction|].
  reflexivity.
Qed.

Lemma Similarity_run m other st :
  length (contents st (sig m)) = length (contents st (sig other)) ->
  Similarity m other st =
    (Done (float64_div
             (float64_of_int
                (Z.of_nat (equal_slots (contents st (sig m)) (contents st (sig other)))))
             (float64_of_int (Z.of_nat (length (contents st (sig m))))),
           None), st).
Proof.
  intros Heq. unfold Similarity.
  rewrite (bind_done _ _ _ _ _ (slice_len_run (sig m) st)).
  rewrite (bind_done _ _ _ _ _ (slice_len_run (sig other) st)).
  destruct (Nat.eqb_spec (length (contents st (sig m)))
                         (length (contents st (sig other)))); [|contradiction].
  change (negb true) with false. cbv iota.
  rewrite (bind_done _ _ _ _ _ (range_run (sig m) st)).
  pose proof (Similarity_loop m other st (length (contents st (sig m))) 0 0
                ltac:(lia) ltac:(lia)) as Hloop.
  unfold Similarity_body in Hloop.
  rewrite (bind_done _ _ _ _ _ Hloop).
  rewrite (bind_done _ _ _ _ _ (slice_len_run (sig m) st)).
  reflexivity.
Qed.

Lemma equal_slots_self (a : list Z) : equal_slots a a = length a.
Proof.
  unfold equal_slots.
  transitivity (length (seq 0 (length a))); [|apply length_seq].
  induction (seq 0 (length a)) as [|i l IH]; [reflexivity|].
  rewrite filter_cons_True by reflexivity. simpl. now rewrite IH.
Qed.

(** ** Batches of pushes *)

Lemma PushAll_run m bb st : PushAll m bb st = (Done tt, pushall_store m bb st).
Proof.
  unfold PushAll, pushall_store. revert st.
  induction bb as [|b bb IH]; intros st; simpl; [reflexivity|].
  rewrite (bind_done _ _ _ _ _ (Push_run m b st)). apply IH.
Qed.

Lemma push_sequentially_run m bb st :
  push_sequentially m bb st = (Done tt, pushall_store m bb st).
Proof.
  unfold push_sequentially, pushall_store. revert st.
  induction bb as [|b bb IH]; intros st; simpl; [reflexivity|].
  rewrite Push_run. apply IH.
Qed.

Lemma for_each_fmap {A B} (g : A -> B) (body : B -> go unit) l st :
  for_each (fun a => body (g a)) l st = for_each body (g <$> l) st.
Proof.
  revert st. induction l as [|a l IH]; intros st; simpl; [reflexivity|].
  unfold bind. destruct (body (g a) st) as [[[]|p] st1]; [apply IH|reflexivity].
Qed.

Lemma PushStrings_PushAll m ss st :
  PushStrings m ss st = PushAll m (list_byte_of_string <$> ss) st.
Proof. unfold PushStrings, PushAll. apply for_each_fmap. Qed.

Lemma contents_pushall_store m bb : forall st l,
  contents (pushall_store m bb st) l =
    if decide (sig m = l) then pushall_sig (hashFunc m) bb (contents st l)
    else contents st l.
Proof.
  unfold pushall_store, pushall_sig.
  induction bb as [|b bb IH]; intros st l; simpl.
  - now destruct (decide _).
  - rewrite IH, contents_push_store. now destruct (decide _).
Qed.

Lemma push_slot_idem v i x : push_slot v i (push_slot v i x) = push_slot v i x.
Proof. rewrite !push_slot_min. lia. Qed.

Lemma push_slot_comm v w i x :
  push_slot v i (push_slot w i x) = push_slot w i (push_slot v i x).
Proof. rewrite !push_slot_min. lia. Qed.

Lemma lookup_push_sig v sg i : push_sig v sg !! i = push_slot v i <$> sg !! i.
Proof. apply list_lookup_imap. Qed.

Lemma push_sig_idem v sg : push_sig v (push_sig v sg) = push_sig v sg.
Proof.
  apply list_eq. intros i. rewrite !lookup_push_sig.
  destruct (sg !! i); simpl; [|reflexivity]. now rewrite push_slot_idem.
Qed.

Lemma push_sig_comm v w sg : push_sig v (push_sig w sg) = push_sig w (push_sig v sg).
Proof.
  apply list_eq. intros i. rewrite !lookup_push_sig.
  destruct (sg !! i); simpl; [|reflexivity]. now rewrite push_slot_comm.
Qed.

Lemma pushall_sig_perm hf l1 l2 :
  l1 ≡ₚ l2 -> forall sg, pushall_sig hf l1 sg = pushall_sig hf l2 sg.
Proof.
  unfold pushall_sig.
  induction 1 as [|b l1 l2 _ IH|b c l|l1 l2 l3 _ IH1 _ IH2]; intros sg; simpl.
  - reflexivity.
  - apply IH.
  - now rewrite push_sig_comm.
  - now rewrite IH1.
Qed.

(** ** binary64 conversion and division *)

Lemma iter_pos_nat {A} (f : A -> A) (n : positive) (x : A) :
  SpecFloat.iter_pos f n x = Nat.iter (Pos.to_nat n) f x.
Proof.
  revert x. induction n as [n IH|n IH|]; intros x.
  - change (SpecFloat.iter_pos f n~1 x)
      with (SpecFloat.iter_pos f n (SpecFloat.iter_pos f n (f x))).
    rewrite !IH, Pos2Nat.inj_xI.
    replace (S (2 * Pos.to_nat n)) with (Pos.to_nat n + (Pos.to_nat n + 1))%nat by lia.
    now rewrite !Nat.iter_add.
  - change (SpecFloat.iter_pos f n~0 x)
      with (SpecFloat.iter_pos f n (SpecFloat.iter_pos f n x)).
    rewrite !IH, Pos2Nat.inj_xO.
    replace (2 * Pos.to_nat n)%nat with (Pos.to_nat n + Pos.to_nat n)%nat by lia.
    now rewrite Nat.iter_add.
  - reflexivity.
Qed.

Lemma digits2_pos_iter_xO (p k : positive) :
  digits2_pos (Pos.iter xO p k) = (digits2_pos p + k)%positive.
Proof.
  induction k as [|k IH] using Pos.peano_ind.
  - simpl. now rewrite Pos.add_1_r.
  - rewrite Pos.iter_succ. simpl. rewrite IH. lia.
Qed.

Lemma digits2_pos_succ (p : positive) :
  digits2_pos (Pos.succ p) = digits2_pos p \/
  digits2_pos (Pos.succ p) = Pos.succ (digits2_pos p).
Proof.
  induction p as [p IH|p IH|]; simpl; [|now left|now right].
  destruct IH as [-> | ->]; [now left|now right].
Qed.

Lemma digits2_pos_lower (p : positive) : 2 ^ (Z.pos (digits2_pos p) - 1) <= Z.pos p.
Proof.
  induction p as [p IH|p IH|]; simpl digits2_pos.
  - rewrite Pos2Z.inj_succ. replace (Z.succ (Z.pos (digits2_pos p)) - 1)
      with (Z.succ (Z.pos (digits2_pos p) - 1)) by lia.
    rewrite Z.pow_succ_r by lia. lia.
  - rewrite Pos2Z.inj_succ. replace (Z.succ (Z.pos (digits2_pos p)) - 1)
      with (Z.succ (Z.pos (digits2_pos p) - 1)) by lia.
    rewrite Z.pow_succ_r by lia. lia.
  - simpl. lia.
Qed.

Lemma shr_1_pos mrs p :
  shr_m mrs = Z.pos p -> (1 < digits2_pos p)%positive ->
  exists p', shr_m (shr_1 mrs) = Z.pos p' /\
             digits2_pos p = Pos.succ (digits2_pos p').
Proof.
  destruct mrs as [m r s]. simpl. intros -> Hd.
  destruct p as [p|p|]; simpl in *; [now exists p|now exists p|lia].
Qed.

Lemma shr_iter_pos (n : nat) : forall mrs p,
  shr_m mrs = Z.pos p -> Z.of_nat n < Z.pos (digits2_pos p) ->
  exists p', shr_m (Nat.iter n shr_1 mrs) = Z.pos p' /\
             Z.pos (digits2_pos p) = Z.pos (digits2_pos p') + Z.of_nat n.
Proof.
  induction n as [|n IH]; intros mrs p Hm Hn.
  - exists p. simpl. split; [exact Hm|lia].
  - destruct (IH mrs p Hm ltac:(lia)) as (p1 & H1 & Hd1).
    destruct (shr_1_pos _ _ H1 ltac:(lia)) as (p2 & H2 & Hd2).
    exists p2. simpl. split; [exact H2|]. rewrite Hd1, Hd2. lia.
Qed.

(** [shr_fexp] on a positive mantissa with at least 53 digits. *)
Lemma shr_fexp_pos (p : positive) (e : Z) (l : location) :
  53 <= Z.pos (digits2_pos p) -> -1000 <= e ->
  exists mrs p',
    shr_fexp prec64 emax64 (Z.pos p) e l = (mrs, e + (Z.pos (digits2_pos p) - 53)) /\
    shr_m mrs = Z.pos p' /\ Z.pos (digits2_pos p') = 53.
Proof.
  intros Hd He. unfold shr_fexp, shr. simpl Zdigits2.
  replace (fexp prec64 emax64 (Z.pos (digits2_pos p) + e) - e)
    with (Z.pos (digits2_pos p) - 53)
    by (unfold fexp, emin, prec64, emax64; lia).
  destruct (Z.pos (digits2_pos p) - 53) as [|k|k] eqn:Hk; [|  |lia].
  - exists (shr_record_of_loc (Z.pos p) l), p.
    rewrite Z.add_0_r. split; [reflexivity|]. split; [now destruct l as [|[]]|lia].
  - rewrite iter_pos_nat.
    destruct (shr_iter_pos (Pos.to_nat k) (shr_record_of_loc (Z.pos p) l) p
                ltac:(now destruct l as [|[]]) ltac:(lia)) as (p' & H1 & H2).
    exists (Nat.iter (Pos.to_nat k) shr_1 (shr_record_of_loc (Z.pos p) l)), p'.
    split; [reflexivity|]. split; [exact H1|lia].
Qed.

Lemma div_eucl_shiftl_self (m : positive) :
  Z.div_eucl (Z.shiftl (Z.pos m) 53) (Z.pos m) = (2 ^ 53, 0).
Proof.
  rewrite Z.shiftl_mul_pow2 by lia.
  pose proof (Z.div_mul (2 ^ 53) (Z.pos m) ltac:(lia)) as Hq.
  pose proof (Z.mod_mul (2 ^ 53) (Z.pos m) ltac:(lia)) as Hr.
  rewrite (Z.mul_comm (Z.pos m)).
  unfold Z.div, Z.modulo in Hq, Hr.
  destruct (Z.div_eucl (2 ^ 53 * Z.pos m) (Z.pos m)) as [q r].
  now subst.
Qed.

Lemma float64_div_self m e :
  float64_div (S754_finite false m e) (S754_finite false m e) = float64_one.
Proof.
  unfold float64_div, SFdiv, SFdiv_core_binary.
  rewrite !Z.sub_diag.
  change (Z.min (fexp prec64 emax64 0) 0) with (-53).
  change (0 - -53) with 53.
  cbv iota. rewrite div_eucl_shiftl_self.
  replace (new_location (Z.pos m) 0) with loc_Exact
    by (unfold new_location; now destruct (Z.even (Z.pos m))).
  reflexivity.
Qed.

Lemma digits2_pos_upper (p : positive) : Z.pos p < 2 ^ Z.pos (digits2_pos p).
Proof.
  induction p as [p IH|p IH|]; simpl digits2_pos.
  - rewrite Pos2Z.inj_succ, Z.pow_succ_r by lia. lia.
  - rewrite Pos2Z.inj_succ, Z.pow_succ_r by lia. lia.
  - simpl. lia.
Qed.

Lemma digits2_pos_bounds (p : positive) (d : Z) :
  2 ^ (d - 1) <= Z.pos p < 2 ^ d -> Z.pos (digits2_pos p) = d.
Proof.
  intros [Hlo Hhi].
  pose proof (digits2_pos_lower p) as Hl.
  pose proof (digits2_pos_upper p) as Hu.
  destruct (Z.lt_trichotomy (Z.pos (digits2_pos p)) d) as [Hlt|[Heq|Hgt]];
    [exfalso|exact Heq|exfalso].
  - assert (2 ^ Z.pos (digits2_pos p) <= 2 ^ (d - 1))
      by (apply Z.pow_le_mono_r; lia). lia.
  - assert (0 <= d \/ d < 0) as [Hd|Hd] by lia.
    + assert (2 ^ d <= 2 ^ (Z.pos (digits2_pos p) - 1))
        by (apply Z.pow_le_mono_r; lia). lia.
    + rewrite (Z.pow_neg_r 2 d) in Hhi by lia. lia.
Qed.

(** A successor that needs one more digit is a power of two. *)
Lemma digits2_pos_succ_carry (p : positive) :
  digits2_pos (Pos.succ p) = Pos.succ (digits2_pos p) ->
  Z.pos (Pos.succ p) = 2 ^ Z.pos (digits2_pos p).
Proof.
  intros H. pose proof (digits2_pos_lower (Pos.succ p)) as Hl.
  pose proof (digits2_pos_upper p) as Hu.
  rewrite H, Pos2Z.inj_succ in Hl.
  replace (Z.succ (Z.pos (digits2_pos p)) - 1) with (Z.pos (digits2_pos p)) in Hl by lia.
  lia.
Qed.

Lemma round_nearest_even_cases (p : positive) (l : location) :
  round_nearest_even (Z.pos p) l = Z.pos p \/
  round_nearest_even (Z.pos p) l = Z.pos (Pos.succ p).
Proof.
  assert (Hs : Z.pos p + 1 = Z.pos (Pos.succ p)) by lia.
  unfold round_nearest_even. rewrite Hs.
  destruct l as [|[]]; auto. destruct (Z.even (Z.pos p)); auto.
Qed.

(** The result of rounding a positive mantissa of at least 53 digits: a
    53-digit mantissa, at the exponent of the truncation or, when rounding
    up carried into a 54th digit, one above it with mantissa [2^52]. *)
Lemma binary_round_aux_key (p : positive) (e : Z) (l : location) :
  53 <= Z.pos (digits2_pos p) -> -1000 <= e ->
  e + (Z.pos (digits2_pos p) - 53) < 900 ->
  exists m e',
    binary_round_aux prec64 emax64 false (Z.pos p) e l = S754_finite false m e' /\
    Z.pos (digits2_pos m) = 53 /\
    (e' = e + (Z.pos (digits2_pos p) - 53) \/
     (e' = e + (Z.pos (digits2_pos p) - 53) + 1 /\ m = (2 ^ 52)%positive)).
Proof.
  intros Hd He Hhi. unfold binary_round_aux.
  destruct (shr_fexp_pos p e l Hd He) as (mrs & p' & -> & Hm & Hd').
  rewrite Hm. set (e1 := e + (Z.pos (digits2_pos p) - 53)) in *.
  assert (Hle : forall x, x <= e1 + 1 -> (x <=? emax64 - prec64) = true).
  { intros x Hx. apply Z.leb_le. unfold emax64, prec64. lia. }
  destruct (round_nearest_even_cases p' (loc_of_shr_record mrs)) as [-> | ->].
  - exists p', e1. unfold shr_fexp, shr. simpl Zdigits2.
    replace (fexp prec64 emax64 (Z.pos (digits2_pos p') + e1) - e1) with 0
      by (unfold fexp, emin, prec64, emax64; lia).
    simpl. rewrite Hle by lia. auto.
  - destruct (digits2_pos_succ p') as [Hs|Hs].
    + exists (Pos.succ p'), e1. unfold shr_fexp, shr. simpl Zdigits2.
      replace (fexp prec64 emax64 (Z.pos (digits2_pos (Pos.succ p'))  + e1) - e1) with 0
        by (rewrite Hs; unfold fexp, emin, prec64, emax64; lia).
      simpl. rewrite Hle by lia. rewrite Hs. auto.
    + pose proof (digits2_pos_succ_carry p' Hs) as Hc. rewrite Hd' in Hc.
      assert (Hq : Pos.succ p' = (2 ^ 53)%positive) by lia.
      rewrite Hq.
      exists (2 ^ 52)%positive, (e1 + 1). unfold shr_fexp, shr.
      replace (fexp prec64 emax64 (Zdigits2 (Z.pos (2 ^ 53)) + e1) - e1) with 1
        by (change (Zdigits2 (Z.pos (2 ^ 53))) with 54;
            unfold fexp, emin, prec64, emax64; lia).
      simpl. rewrite Hle by lia. auto.
Qed.

Lemma float64_le_one_leb m e :
  float64_le_one m e ->
  float64_leb float64_zero (S754_finite false m e) = true /\
  float64_leb (S754_finite false m e) float64_one = true.
Proof.
  intros H. split; [reflexivity|].
  unfold float64_leb, SFleb, float64_one, SFcompare.
  destruct H as [H|[-> ->]].
  - now rewrite (proj2 (Z.compare_lt_iff e (-52)) H).
  - reflexivity.
Qed.

Lemma float64_div_le_one (mk mn : positive) (ek en : Z) :
  Z.pos (digits2_pos mk) = 53 -> Z.pos (digits2_pos mn) = 53 ->
  -100 <= ek <= 100 -> -100 <= en <= 100 ->
  ek < en \/ (ek = en /\ Z.pos mk <= Z.pos mn) ->
  exists m e,
    float64_div (S754_finite false mk ek) (S754_finite false mn en) =
      S754_finite false m e /\
    float64_le_one m e.
Proof.
  intros Hdk Hdn Hek Hen Hord.
  destruct (decide (ek = en /\ mk = mn)) as [[-> ->]|Hneq].
  { rewrite float64_div_self. exists (2 ^ 52)%positive, (-52).
    split; [reflexivity|]. right. auto. }
  unfold float64_div, SFdiv, SFdiv_core_binary. simpl Zdigits2.
  rewrite Hdk, Hdn.
  replace (Z.min (fexp prec64 emax64 (53 + ek - (53 + en))) (ek - en))
    with (ek - en - 53)
    by (unfold fexp, emin, prec64, emax64; lia).
  replace (ek - en - (ek - en - 53)) with 53 by lia. cbv iota.
  rewrite Z.shiftl_mul_pow2 by lia.
  pose proof (digits2_pos_lower mk) as Hlk. pose proof (digits2_pos_upper mk) as Huk.
  pose proof (digits2_pos_lower mn) as Hln. pose proof (digits2_pos_upper mn) as Hun.
  rewrite Hdk in Hlk, Huk. rewrite Hdn in Hln, Hun.
  change (2 ^ (53 - 1)) with (2 ^ 52) in *.
  set (a := Z.pos mk * 2 ^ 53).
  pose proof (Z.div_mod a (Z.pos mn) ltac:(lia)) as Hdm.
  pose proof (Z.mod_pos_bound a (Z.pos mn) ltac:(lia)) as Hmod.
  unfold Z.div, Z.modulo in Hdm, Hmod.
  destruct (Z.div_eucl a (Z.pos mn)) as [q r].
  assert (Hqlo : 2 ^ 52 <= q) by (subst a; nia).
  assert (Hqhi : q < 2 ^ 54) by (subst a; nia).
  destruct q as [|pq|pq]; [lia| |lia].
  assert (Hdq : Z.pos (digits2_pos pq) = 53 \/ Z.pos (digits2_pos pq) = 54).
  { destruct (Z.lt_ge_cases (Z.pos pq) (2 ^ 53)).
    - left. apply digits2_pos_bounds. change (2 ^ (53 - 1)) with (2 ^ 52). lia.
    - right. apply digits2_pos_bounds. change (2 ^ (54 - 1)) with (2 ^ 53). lia. }
  assert (Hsame : ek = en -> Z.pos (digits2_pos pq) = 53).
  { intros ->. destruct Hord as [?|[_ Hle]]; [lia|].
    assert (Z.pos mk < Z.pos mn) by (assert (mk <> mn) by tauto; lia).
    apply digits2_pos_bounds. change (2 ^ (53 - 1)) with (2 ^ 52).
    split; [lia|]. subst a. nia. }
  change (xorb false false) with false.
  destruct (binary_round_aux_key pq (ek - en - 53) (new_location (Z.pos mn) r)
              ltac:(lia) ltac:(lia) ltac:(lia)) as (m & e & -> & _ & He).
  exists m, e. split; [reflexivity|]. unfold float64_le_one.
  destruct He as [He|[He ->]]; destruct Hdq as [Hdq|Hdq]; rewrite Hdq in He; lia.
Qed.

Lemma shr_1_spec m r s :
  0 <= m ->
  shr_1 {| shr_m := m; shr_r := r; shr_s := s |} =
    {| shr_m := m / 2; shr_r := Z.odd m; shr_s := r || s |}.
Proof.
  intros Hm. rewrite <- Z.div2_div.
  destruct m as [|[p|p|]|p]; try reflexivity. lia.
Qed.

Lemma shr_iter_spec (p : positive) (j : nat) :
  let mrs := Nat.iter j shr_1 {| shr_m := Z.pos p; shr_r := false; shr_s := false |} in
  let rem := Z.pos p mod 2 ^ Z.of_nat j in
  shr_m mrs = Z.pos p / 2 ^ Z.of_nat j /\
  shr_r mrs = (2 ^ Z.of_nat j <=? 2 * rem) /\
  shr_s mrs = negb (rem =? 0) && negb (2 * rem =? 2 ^ Z.of_nat j).
Proof.
  induction j as [|j IH].
  - simpl. rewrite Z.div_1_r, Z.mod_1_r. auto.
  - cbv zeta in *. simpl Nat.iter.
    destruct (Nat.iter j shr_1 _) as [m r s]. simpl in IH.
    destruct IH as (Hm & Hr & Hs).
    assert (H2 : 0 < 2 ^ Z.of_nat j) by (apply Z.pow_pos_nonneg; lia).
    assert (Hm0 : 0 <= m) by (rewrite Hm; apply Z.div_pos; lia).
    rewrite shr_1_spec by exact Hm0. simpl.
    rewrite Nat2Z.inj_succ, Z.pow_succ_r by lia.
    rewrite (Z.mul_comm 2 (2 ^ Z.of_nat j)).
    rewrite Z.rem_mul_r by lia.
    rewrite <- Z.div_div by lia. rewrite <- Hm.
    pose proof (Z.mod_pos_bound (Z.pos p) (2 ^ Z.of_nat j) H2) as Hrem.
    set (rem := Z.pos p mod 2 ^ Z.of_nat j) in *.
    pose proof (Z.mod_pos_bound m 2 ltac:(lia)) as Hb.
    rewrite (Zmod_odd m) in *.
    split; [reflexivity|]. subst r s.
    destruct (Z.odd m);
      repeat match goal with
             | |- context [?a <=? ?b] => destruct (Z.leb_spec a b)
             | |- context [?a =? ?b] => destruct (Z.eqb_spec a b)
             end; simpl; try lia; auto.
Qed.

Lemma round_shift_record (p : positive) (j : nat) :
  let mrs := Nat.iter j shr_1 {| shr_m := Z.pos p; shr_r := false; shr_s := false |} in
  round_nearest_even (shr_m mrs) (loc_of_shr_record mrs) = round_shift (Z.pos p) j.
Proof.
  cbv zeta. pose proof (shr_iter_spec p j) as H. cbv zeta in H.
  destruct (Nat.iter j shr_1 _) as [m r s]. simpl in H.
  destruct H as (Hm & Hr & Hs). unfold round_shift. rewrite <- Hm.
  rewrite <- Hr.
  assert (H2 : 0 < 2 ^ Z.of_nat j) by (apply Z.pow_pos_nonneg; lia).
  pose proof (Z.mod_pos_bound (Z.pos p) (2 ^ Z.of_nat j) H2) as Hrem.
  set (rem := Z.pos p mod 2 ^ Z.of_nat j) in *.
  unfold loc_of_shr_record, round_nearest_even. simpl shr_m.
  rewrite <- Z.negb_odd.
  destruct r; subst s; simpl.
  - symmetry in Hr. apply Z.leb_le in Hr.
    destruct (Z.eqb_spec rem 0); [lia|]. simpl.
    destruct (Z.eqb_spec (2 * rem) (2 ^ Z.of_nat j)); simpl.
    + destruct (Z.odd m); simpl; lia.
    + lia.
  - destruct (negb (rem =? 0) && negb (2 * rem =? 2 ^ Z.of_nat j)); lia.
Qed.

Lemma round_shift_mono (p1 p2 : Z) (j : nat) :
  0 <= p1 <= p2 -> round_shift p1 j <= round_shift p2 j.
Proof.
  intros Hp. unfold round_shift.
  assert (H2 : 0 < 2 ^ Z.of_nat j) by (apply Z.pow_pos_nonneg; lia).
  pose proof (Z.div_le_mono p1 p2 (2 ^ Z.of_nat j) H2 ltac:(lia)) as Hdiv.
  pose proof (Z.div_mod p1 (2 ^ Z.of_nat j) ltac:(lia)) as E1.
  pose proof (Z.div_mod p2 (2 ^ Z.of_nat j) ltac:(lia)) as E2.
  pose proof (Z.mod_pos_bound p1 (2 ^ Z.of_nat j) H2) as B1.
  pose proof (Z.mod_pos_bound p2 (2 ^ Z.of_nat j) H2) as B2.
  set (m1 := p1 / 2 ^ Z.of_nat j) in *. set (m2 := p2 / 2 ^ Z.of_nat j) in *.
  set (r1 := p1 mod 2 ^ Z.of_nat j) in *. set (r2 := p2 mod 2 ^ Z.of_nat j) in *.
  destruct (Z.eq_dec m1 m2) as [Heq|Hne].
  - rewrite <- Heq in *. assert (r1 <= r2) by lia.
    destruct (Z.odd m1);
      repeat match goal with
             | |- context [?a <=? ?b] => destruct (Z.leb_spec a b)
             | |- context [?a =? ?b] => destruct (Z.eqb_spec a b)
             end; simpl; lia.
  - assert (m1 + 1 <= m2) by lia.
    destruct ((2 ^ Z.of_nat j <=? 2 * r1) && _);
    destruct ((2 ^ Z.of_nat j <=? 2 * r2) && _); lia.
Qed.

Lemma round_shift_bounds (p : Z) (j : nat) :
  0 <= p ->
  p / 2 ^ Z.of_nat j <= round_shift p j <= p / 2 ^ Z.of_nat j + 1.
Proof.
  intros Hp. unfold round_shift.
  destruct ((2 ^ Z.of_nat j <=? _) && _); lia.
Qed.

Lemma digits2_pos_mono (p q : positive) :
  Z.pos p <= Z.pos q -> Z.pos (digits2_pos p) <= Z.pos (digits2_pos q).
Proof.
  intros Hle.
  pose proof (digits2_pos_lower p) as Hl. pose proof (digits2_pos_upper q) as Hu.
  destruct (Z.le_gt_cases (Z.pos (digits2_pos p)) (Z.pos (digits2_pos q)))
    as [?|Hgt]; [assumption|exfalso].
  assert (2 ^ Z.pos (digits2_pos q) <= 2 ^ (Z.pos (digits2_pos p) - 1))
    by (apply Z.pow_le_mono_r; lia).
  lia.
Qed.

Lemma pos_iter_xO_value (p k : positive) :
  Z.pos (Pos.iter xO p k) = Z.pos p * 2 ^ Z.pos k.
Proof.
  induction k as [|k IH] using Pos.peano_ind.
  - simpl. lia.
  - rewrite Pos.iter_succ, Pos2Z.inj_xO, IH, Pos2Z.inj_succ, Z.pow_succ_r by lia.
    lia.
Qed.

(** A 53-digit mantissa at an exponent in range is left as it is. *)
Lemma binary_round_aux_canonical (m : positive) (e : Z) :
  Z.pos (digits2_pos m) = 53 -> -1000 <= e <= 900 ->
  binary_round_aux prec64 emax64 false (Z.pos m) e loc_Exact = S754_finite false m e.
Proof.
  intros Hd He. unfold binary_round_aux, shr_fexp, shr. simpl Zdigits2.
  replace (fexp prec64 emax64 (Z.pos (digits2_pos m) + e) - e) with 0
    by (unfold fexp, emin, prec64, emax64; lia).
  simpl.
  replace (fexp prec64 emax64 (Z.pos (digits2_pos m) + e) - e) with 0
    by (unfold fexp, emin, prec64, emax64; lia).
  simpl. now rewrite (proj2 (Z.leb_le e (emax64 - prec64)))
    by (unfold emax64, prec64; lia).
Qed.

Lemma round_shift_range (p : positive) (j : nat) :
  Z.pos (digits2_pos p) = 53 + Z.of_nat j ->
  2 ^ 52 <= round_shift (Z.pos p) j <= 2 ^ 53.
Proof.
  intros Hd.
  pose proof (digits2_pos_lower p) as Hl. pose proof (digits2_pos_upper p) as Hu.
  rewrite Hd in Hl, Hu.
  replace (53 + Z.of_nat j - 1) with (52 + Z.of_nat j) in Hl by lia.
  rewrite Z.pow_add_r in Hl, Hu by lia.
  assert (H2 : 0 < 2 ^ Z.of_nat j) by (apply Z.pow_pos_nonneg; lia).
  pose proof (round_shift_bounds (Z.pos p) j ltac:(lia)) as Hb.
  assert (2 ^ 52 <= Z.pos p / 2 ^ Z.of_nat j)
    by (apply Z.div_le_lower_bound; lia).
  assert (Z.pos p / 2 ^ Z.of_nat j < 2 ^ 53)
    by (apply Z.div_lt_upper_bound; lia).
  lia.
Qed.

Lemma float64_of_int_key (p : positive) :
  Z.pos p <= max_int ->
  exists m e,
    float64_of_int (Z.pos p) = S754_finite false m e /\
    Z.pos (digits2_pos m) = 53 /\
    -52 <= e <= 11 /\
    Z.pos m * 2 ^ (e + 52) = rounded_int p * 2 ^ 52.
Proof.
  intros Hmax.
  assert (Hd : 1 <= Z.pos (digits2_pos p) <= 63).
  { split; [lia|]. pose proof (digits2_pos_lower p) as Hl.
    destruct (Z.le_gt_cases (Z.pos (digits2_pos p)) 63) as [?|Hgt]; [assumption|].
    exfalso. assert (2 ^ 63 <= 2 ^ (Z.pos (digits2_pos p) - 1))
      by (apply Z.pow_le_mono_r; lia).
    unfold max_int in Hmax. lia. }
  unfold float64_of_int, binary_normalize, binary_round, shl_align, rounded_int.
  replace (fexp prec64 emax64 (Z.pos (digits2_pos p) + 0) - 0)
    with (Z.pos (digits2_pos p) - 53)
    by (unfold fexp, emin, prec64, emax64; lia).
  replace (fexp prec64 emax64 (Z.pos (digits2_pos p) + 0))
    with (Z.pos (digits2_pos p) - 53)
    by (unfold fexp, emin, prec64, emax64; lia).
  destruct (Z.pos (digits2_pos p) - 53) as [|k|k] eqn:Hk.
  - (* exactly 53 digits *)
    rewrite binary_round_aux_canonical by lia.
    exists p, 0. rewrite (proj2 (Z.leb_le _ 53)) by lia.
    repeat split; lia.
  - (* more than 53 digits: shift right by k, then round *)
    rewrite (proj2 (Z.leb_gt _ 53)) by lia.
    rewrite Z2Nat.inj_pos.
    pose proof (round_shift_record p (Pos.to_nat k)) as Hr. cbv zeta in Hr.
    pose proof (round_shift_range p (Pos.to_nat k) ltac:(lia)) as Hq.
    unfold binary_round_aux, shr_fexp at 1, shr at 1. simpl Zdigits2.
    replace (fexp prec64 emax64 (Z.pos (digits2_pos p) + 0) - 0) with (Z.pos k)
      by (unfold fexp, emin, prec64, emax64; lia).
    rewrite iter_pos_nat.
    change (shr_record_of_loc (Z.pos p) loc_Exact)
      with {| shr_m := Z.pos p; shr_r := false; shr_s := false |}.
    rewrite Hr. set (q := round_shift (Z.pos p) (Pos.to_nat k)) in *.
    destruct q as [|pq|pq] eqn:Eq; [lia| |lia].
    assert (Hle : forall x, x <= 12 -> (x <=? emax64 - prec64) = true).
    { intros x Hx. apply Z.leb_le. unfold emax64, prec64. lia. }
    destruct (Z.eq_dec (Z.pos pq) (2 ^ 53)) as [Hc|Hnc].
    + assert (Hpq : pq = (2 ^ 53)%positive) by lia. rewrite Hpq.
      exists (2 ^ 52)%positive, (Z.pos k + 1). unfold shr_fexp, shr.
      replace (fexp prec64 emax64 (Zdigits2 (Z.pos (2 ^ 53)) + (0 + Z.pos k)) - (0 + Z.pos k))
        with 1
        by (change (Zdigits2 (Z.pos (2 ^ 53))) with 54;
            unfold fexp, emin, prec64, emax64; lia).
      simpl Z.add. simpl SpecFloat.iter_pos. simpl shr_m.
      rewrite Hle by lia.
      split; [reflexivity|]. split; [reflexivity|]. split; [lia|].
      replace (Z.pos k + 1 + 52) with (1 + 52 + Z.pos k) by lia.
      rewrite !Z.pow_add_r by lia. change (Z.pos (2 ^ 53)) with (2 ^ 53).
      change (Z.pos (2 ^ 52)) with (2 ^ 52). lia.
    + assert (Hdq : Z.pos (digits2_pos pq) = 53).
      { apply digits2_pos_bounds. change (2 ^ (53 - 1)) with (2 ^ 52). lia. }
      exists pq, (Z.pos k). unfold shr_fexp, shr. simpl Zdigits2.
      replace (fexp prec64 emax64 (Z.pos (digits2_pos pq) + (0 + Z.pos k)) - (0 + Z.pos k))
        with 0
        by (unfold fexp, emin, prec64, emax64; lia).
      simpl Z.add. simpl shr_m. rewrite Hle by lia.
      split; [reflexivity|]. split; [exact Hdq|]. split; [lia|].
      rewrite Z.pow_add_r by lia. lia.
  - (* fewer than 53 digits: shift left by k *)
    rewrite (proj2 (Z.leb_le _ 53)) by lia.
    rewrite binary_round_aux_canonical
      by (try rewrite digits2_pos_iter_xO; lia).
    exists (Pos.iter xO p k), (Z.neg k).
    split; [reflexivity|]. split; [rewrite digits2_pos_iter_xO; lia|].
    split; [lia|].
    rewrite pos_iter_xO_value, <- Z.mul_assoc, <- Z.pow_add_r by lia.
    do 2 f_equal. lia.
Qed.

Lemma rounded_int_mono (p q : positive) :
  Z.pos p <= Z.pos q -> rounded_int p <= rounded_int q.
Proof.
  intros Hle. pose proof (digits2_pos_mono p q Hle) as Hd.
  unfold rounded_int.
  pose proof (digits2_pos_upper p) as Hup.
  destruct (Z.leb_spec (Z.pos (digits2_pos q)) 53) as [Hq|Hq].
  - rewrite (proj2 (Z.leb_le _ 53)) by lia. exact Hle.
  - set (jq := Z.to_nat (Z.pos (digits2_pos q) - 53)).
    assert (Hjq : Z.pos (digits2_pos q) - 53 = Z.of_nat jq) by (subst jq; lia).
    pose proof (round_shift_range q jq ltac:(lia)) as Hrq.
    rewrite Hjq.
    assert (H2q : 0 < 2 ^ Z.of_nat jq) by (apply Z.pow_pos_nonneg; lia).
    destruct (Z.leb_spec (Z.pos (digits2_pos p)) 53) as [Hp|Hp].
    + (* p is exact and below 2^53 *)
      assert (Z.pos p < 2 ^ 53).
      { eapply Z.lt_le_trans; [exact Hup|]. apply Z.pow_le_mono_r; lia. }
      assert (2 <= 2 ^ Z.of_nat jq).
      { change 2 with (2 ^ 1) at 1. apply Z.pow_le_mono_r; lia. }
      change (2 ^ 53) with (2 ^ 52 * 2) in *. nia.
    + set (jp := Z.to_nat (Z.pos (digits2_pos p) - 53)).
      assert (Hjp : Z.pos (digits2_pos p) - 53 = Z.of_nat jp) by (subst jp; lia).
      pose proof (round_shift_range p jp ltac:(lia)) as Hrp.
      rewrite Hjp.
      assert (H2p : 0 < 2 ^ Z.of_nat jp) by (apply Z.pow_pos_nonneg; lia).
      destruct (Z.eq_dec (Z.of_nat jp) (Z.of_nat jq)) as [Heq|Hne].
      * assert (jp = jq) by lia. subst jq. rewrite <- H in *.
        apply Z.mul_le_mono_nonneg_r; [lia|].
        apply round_shift_mono. lia.
      * assert (2 ^ (Z.of_nat jp + 1) <= 2 ^ Z.of_nat jq)
          by (apply Z.pow_le_mono_r; lia).
        rewrite Z.pow_add_r in H by lia.
        change (2 ^ 53) with (2 ^ 52 * 2) in *. change (2 ^ 1) with 2 in H. nia.
Qed.

(** Ordering of two 53-digit floats read off their exponents and mantissas. *)
Lemma key_order (mk mn : positive) (ek en : Z) :
  Z.pos (digits2_pos mk) = 53 -> Z.pos (digits2_pos mn) = 53 ->
  -52 <= ek -> -52 <= en ->
  Z.pos mk * 2 ^ (ek + 52) <= Z.pos mn * 2 ^ (en + 52) ->
  ek < en \/ (ek = en /\ Z.pos mk <= Z.pos mn).
Proof.
  intros Hdk Hdn Hek Hen Hle.
  pose proof (digits2_pos_lower mk) as Hlk. pose proof (digits2_pos_upper mn) as Hun.
  rewrite Hdk in Hlk. rewrite Hdn in Hun. change (2 ^ (53 - 1)) with (2 ^ 52) in Hlk.
  assert (H2 : 0 < 2 ^ (en + 52)) by (apply Z.pow_pos_nonneg; lia).
  destruct (Z.lt_trichotomy ek en) as [?|[->|Hgt]]; [now left|right|exfalso].
  - split; [reflexivity|]. nia.
  - assert (2 ^ (en + 52 + 1) <= 2 ^ (ek + 52)) by (apply Z.pow_le_mono_r; lia).
    rewrite Z.pow_add_r in H by lia. change (2 ^ 1) with 2 in H.
    change (2 ^ 53) with (2 ^ 52 * 2) in *. nia.
Qed.

(** [float64(k) / float64(n)] for [0 <= k <= n], [0 < n], both [int]s, lies
    between [0.0] and [1.0]. *)
Lemma float64_ratio_bounds (k n : Z) :
  0 <= k <= n -> 0 < n <= max_int ->
  float64_leb float64_zero (float64_div (float64_of_int k) (float64_of_int n)) = true /\
  float64_leb (float64_div (float64_of_int k) (float64_of_int n)) float64_one = true.
Proof.
  intros Hk Hn. destruct n as [|pn|pn]; [lia| |lia].
  destruct (float64_of_int_key pn ltac:(lia)) as (mn & en & -> & Hdn & Hen & Hvn).
  destruct k as [|pk|pk]; [|  |lia].
  - split; reflexivity.
  - destruct (float64_of_int_key pk ltac:(lia)) as (mk & ek & -> & Hdk & Hek & Hvk).
    pose proof (rounded_int_mono pk pn ltac:(lia)) as Hmono.
    assert (Hord : ek < en \/ (ek = en /\ Z.pos mk <= Z.pos mn)).
    { apply key_order; [exact Hdk|exact Hdn|lia|lia|].
      rewrite Hvk, Hvn. apply Z.mul_le_mono_nonneg_r; lia. }
    destruct (float64_div_le_one mk mn ek en Hdk Hdn ltac:(lia) ltac:(lia) Hord)
      as (m & e & -> & Hone).
    now apply float64_le_one_leb.
Qed.

Lemma float64_of_int_finite (n : Z) :
  0 < n <= max_int -> exists m e, float64_of_int n = S754_finite false m e.
Proof.
  intros [Hpos Hmax]. destruct n as [|p|p]; [lia| |lia].
  destruct (float64_of_int_key p Hmax) as (m & e & H & _). eauto.
Qed.

Lemma equal_slots_le (xs ys : list Z) : (equal_slots xs ys <= length xs)%nat.
Proof.
  unfold equal_slots.
  etransitivity; [apply length_filter|]. now rewrite length_seq.
Qed.

(** X15. On signatures of equal, non-zero length (an [int]), [Similarity]
    returns with no error a value between [0.0] and [1.0]. *)
Lemma Similarity_nonempty_bounds (m other : Minhash) (st : store) :
  length (contents st (sig m)) = length (contents st (sig other)) ->
  0 < Z.of_nat (length (contents st (sig m))) <= max_int ->
  exists r,
    Similarity m other st = (Done (r, None), st) /\
    float64_leb float64_zero r = true /\
    float64_leb r float64_one = true.
Proof.
  intros Heq Hlen. rewrite Similarity_run by exact Heq.
  eexists. split; [reflexivity|].
  apply float64_ratio_bounds; [|exact Hlen].
  pose proof (equal_slots_le (contents st (sig m)) (contents st (sig other))).
  lia.
Qed.

(** ** Properties of the package *)

(** C1. [Push(b)] returns normally after exactly one call of the engine's
    hash function, on [b]; with [(v1, v2)] the pair that call returns and
    [h_i = (v1 + i * v2) mod 2^64], every slot [i] of the signature holding
    [x] is replaced by [h_i] when [h_i < x] and keeps [x] otherwise, so that
    it ends up holding [min x h_i]; the signature keeps its length. *)
Theorem Push_updates_each_slot (m : Minhash) (b : bytes) (st : store) :
  exists st',
    Push m b st = (Done tt, st') /\
    hash_calls st' = hash_calls st ++ [b] /\
    length (contents st' (sig m)) = length (contents st (sig m)) /\
    forall (i : nat) (x : Z),
      contents st (sig m) !! i = Some x ->
      let h_i := ((hashFunc m b).1 + Z.of_nat i * (hashFunc m b).2) mod 2 ^ 64 in
      (h_i < x -> contents st' (sig m) !! i = Some h_i) /\
      (~ h_i < x -> contents st' (sig m) !! i = Some x) /\
      contents st' (sig m) !! i = Some (Z.min x h_i).
Proof.
  exists (push_store m b st). split; [apply Push_run|].
  split; [reflexivity|].
  rewrite contents_push_store. destruct (decide _) as [_|Hn]; [|congruence].
  split; [apply length_imap|].
  intros i x Hx h_i. unfold push_sig.
  rewrite list_lookup_imap, Hx. simpl.
  subst h_i. rewrite <- slot_hash_mod.
  repeat split; intros; rewrite push_slot_min; f_equal; lia.
Qed.

(** C2. For engines [a] and [b] with signatures of equal length,
    [a.Merge(b)] returns normally; afterwards every slot [i] of [a] holds
    the minimum of the values [a] and [b] held there before (hence at most
    [a]'s earlier value), and [b]'s signature is what it was. *)
Theorem Merge_pointwise_minimum (a b : Minhash) (st : store) :
  length (contents st (sig a)) = length (contents st (sig b)) ->
  exists st',
    Merge a b st = (Done tt, st') /\
    length (contents st' (sig a)) = length (contents st (sig a)) /\
    (forall (i : nat) (x y : Z),
       contents st (sig a) !! i = Some x ->
       contents st (sig b) !! i = Some y ->
       contents st' (sig a) !! i = Some (Z.min x y) /\ Z.min x y <= x) /\
    contents st' (sig b) = contents st (sig b).
Proof.
  intros Hlen. exists (merge_store a b st).
  split; [apply Merge_run; lia|].
  rewrite !contents_merge_store.
  destruct (decide (sig a = sig a)) as [_|?]; [|congruence].
  split; [apply length_imap|]. split.
  - intros i x y Hx Hy. split; [|lia].
    unfold merge_sig, merge_slot. rewrite list_lookup_imap, Hx, Hy. simpl.
    f_equal. destruct (Z.ltb_spec y x); lia.
  - destruct (decide (sig a = sig b)) as [_|_]; [|reflexivity].
    apply merge_sig_self.
Qed.

Lemma Merge_pointwise_minimum_witness :
  length (contents (store12 [5; 2] [3; 4]) (sig engine1)) =
    length (contents (store12 [5; 2] [3; 4]) (sig engine2)) /\
  exists st',
    Merge engine1 engine2 (store12 [5; 2] [3; 4]) = (Done tt, st') /\
    length (contents st' (sig engine1)) =
      length (contents (store12 [5; 2] [3; 4]) (sig engine1)) /\
    (forall (i : nat) (x y : Z),
       contents (store12 [5; 2] [3; 4]) (sig engine1) !! i = Some x ->
       contents (store12 [5; 2] [3; 4]) (sig engine2) !! i = Some y ->
       contents st' (sig engine1) !! i = Some (Z.min x y) /\ Z.min x y <= x) /\
    contents st' (sig engine2) = contents (store12 [5; 2] [3; 4]) (sig engine2).
Proof.
  split; [reflexivity|].
  apply (Merge_pointwise_minimum engine1 engine2 (store12 [5; 2] [3; 4])).
  reflexivity.
Defined.

(** C3, at signatures of length 0 (as [NewMinhash(h, 0)] builds them):
    [Similarity] returns [0.0 / 0.0], which is NaN, with no error; NaN is
    neither at least [0.0] nor at most [1.0]. *)
Theorem Similarity_empty_is_nan (m other : Minhash) (st : store) :
  contents st (sig m) = [] ->
  contents st (sig other) = [] ->
  Similarity m other st = (Done (S754_nan, None), st) /\
  float64_leb float64_zero S754_nan = false /\
  float64_leb S754_nan float64_one = false.
Proof.
  intros Hm Ho. rewrite Similarity_run by now rewrite Hm, Ho.
  rewrite Hm, Ho. repeat split.
Qed.

Lemma Similarity_empty_is_nan_witness :
  exists m1 st1 m2 st2,
    NewMinhash hash0 0 store0 = (Done m1, st1) /\
    NewMinhash hash0 0 st1 = (Done m2, st2) /\
    contents st2 (sig m1) = [] /\
    contents st2 (sig m2) = [] /\
    Similarity m1 m2 st2 = (Done (S754_nan, None), st2) /\
    float64_leb float64_zero S754_nan = false /\
    float64_leb S754_nan float64_one = false.
Proof.
  eexists _, _, _, _.
  split; [apply NewMinhash_run; lia|]. split; [apply NewMinhash_run; lia|].
  split; [reflexivity|]. split; [reflexivity|].
  apply Similarity_empty_is_nan; reflexivity.
Defined.

(** C4, as stated, fails: [Merge] with a longer [other] fails too, with an
    index-out-of-range panic. *)
Lemma Merge_fails_counterexample :
  exists m1 st1 m2 st2 st3,
    NewMinhash hash0 1 store0 = (Done m1, st1) /\
    NewMinhash hash0 2 st1 = (Done m2, st2) /\
    Merge m1 m2 st2 = (Panicked (IndexOutOfRange 1 1), st3).
Proof.
  eexists _, _, _, _, _.
  split; [apply NewMinhash_run; lia|]. split; [apply NewMinhash_run; lia|].
  vm_compute. reflexivity.
Qed.

(** C4, amended. [Similarity] always returns, leaving the store as it was;
    it returns [ErrSigSizeMismatch] exactly when the two signature lengths
    differ, and then with the estimate [0.0]; it is the only operation that
    returns an error value.  [Push], [PushAll], [PushStrings], [Signature]
    and [NewMinhashFromSigs] always return normally, [NewMinhash] does for
    [0 <= size], and [Merge] does when the other signature is no longer
    than the receiver's. *)
Theorem Similarity_only_error (m other : Minhash) (st : store) :
  (exists est err,
     Similarity m other st = (Done (est, err), st) /\
     (err = Some ErrSigSizeMismatch <->
        length (contents st (sig m)) <> length (contents st (sig other))) /\
     (err = None <->
        length (contents st (sig m)) = length (contents st (sig other))) /\
     (err = Some ErrSigSizeMismatch -> est = float64_zero)) /\
  (forall b, exists st', Push m b st = (Done tt, st')) /\
  (forall bb, exists st', PushAll m bb st = (Done tt, st')) /\
  (forall ss, exists st', PushStrings m ss st = (Done tt, st')) /\
  Signature m st = (Done (sig m), st) /\
  (forall hf s, exists m' st', NewMinhashFromSigs hf s st = (Done m', st')) /\
  (forall hf size, 0 <= size ->
     exists m' st', NewMinhash hf size st = (Done m', st')) /\
  ((length (contents st (sig other)) <= length (contents st (sig m)))%nat ->
     exists st', Merge m other st = (Done tt, st')).
Proof.
  split.
  { destruct (decide (length (contents st (sig m)) =
                      length (contents st (sig other)))) as [Heq|Hne].
    - eexists _, None. split; [now apply Similarity_run|].
      repeat split; intros; congruence.
    - exists float64_zero, (Some ErrSigSizeMismatch).
      split; [now apply Similarity_mismatch|].
      repeat split; intros; congruence. }
  split; [intros b; eexists; apply Push_run|].
  split; [intros bb; eexists; apply PushAll_run|].
  split; [intros ss; eexists; rewrite PushStrings_PushAll; apply PushAll_run|].
  split; [reflexivity|].
  split; [intros hf s; eexists _, _; apply NewMinhashFromSigs_run|].
  split; [intros hf size Hs; eexists _, _; now apply NewMinhash_run|].
  intros Hlen. eexists. now apply Merge_run.
Qed.

Lemma Similarity_only_error_witness :
  (exists est err,
     Similarity engine1 engine2 (store12 [5; 2; 9] [3; 4]) =
       (Done (est, err), store12 [5; 2; 9] [3; 4]) /\
     err = Some ErrSigSizeMismatch /\ est = float64_zero) /\
  (exists m' st', NewMinhash hash0 2 (store12 [5; 2; 9] [3; 4]) = (Done m', st')) /\
  (exists st', Merge engine1 engine2 (store12 [5; 2; 9] [3; 4]) = (Done tt, st')).
Proof.
  destruct (Similarity_only_error engine1 engine2 (store12 [5; 2; 9] [3; 4]))
    as ((est & err & Hrun & Herr & _ & Hzero) & _ & _ & _ & _ & _ & Hnew & Hmerge).
  assert (He : err = Some ErrSigSizeMismatch).
  { apply Herr. vm_compute. lia. }
  split; [exists est, err; split; [exact Hrun|split; [exact He|exact (Hzero He)]]|].
  split; [apply Hnew; lia|].
  apply Hmerge. vm_compute. lia.
Defined.

(** C5. For every hash function and every [size > 0] (an [int]),
    [NewMinhash] returns an engine whose signature has exactly [size]
    slots, each equal to [2^64 - 1]; and [Similarity] between that engine
    and a second engine freshly built with the same size returns [1.0]
    with no error. *)
Theorem NewMinhash_initial_state (hf1 hf2 : HashFunc) (size : Z) (st : store) :
  0 < size <= max_int ->
  exists m1 st1,
    NewMinhash hf1 size st = (Done m1, st1) /\
    Z.of_nat (length (contents st1 (sig m1))) = size /\
    (forall (i : nat) (x : Z),
       contents st1 (sig m1) !! i = Some x -> x = 2 ^ 64 - 1) /\
    exists m2 st2,
      NewMinhash hf2 size st1 = (Done m2, st2) /\
      Similarity m1 m2 st2 = (Done (float64_one, None), st2).
Proof.
  intros Hs.
  set (m1 := {| sig := fresh (dom (heap st)); hashFunc := hf1 |}).
  set (st1 := new_store size st).
  set (m2 := {| sig := fresh (dom (heap st1)); hashFunc := hf2 |}).
  set (st2 := new_store size st1).
  assert (H1 : contents st1 (sig m1) = replicate (Z.to_nat size) max_uint64).
  { subst st1 m1. apply contents_new_store_eq. }
  exists m1, st1. split; [apply NewMinhash_run; lia|].
  rewrite H1, length_replicate. split; [lia|]. split.
  { intros i x Hx. now apply lookup_replicate_1 in Hx as [-> _]. }
  exists m2, st2. split; [apply NewMinhash_run; lia|].
  assert (Hal : is_Some (heap st1 !! sig m1)).
  { subst st1 m1. unfold new_store. simpl. rewrite lookup_insert_eq. eauto. }
  assert (H1' : contents st2 (sig m1) = replicate (Z.to_nat size) max_uint64).
  { subst st2. now rewrite contents_new_store_ne. }
  assert (H2 : contents st2 (sig m2) = replicate (Z.to_nat size) max_uint64).
  { subst st2 m2. apply contents_new_store_eq. }
  rewrite Similarity_run by now rewrite H1', H2.
  rewrite H1', H2, equal_slots_self, length_replicate, Z2Nat.id by lia.
  destruct (float64_of_int_finite size Hs) as (m & e & ->).
  now rewrite float64_div_self.
Qed.

Lemma NewMinhash_initial_state_witness :
  0 < 3 <= max_int /\
  exists m1 st1,
    NewMinhash hash0 3 store0 = (Done m1, st1) /\
    Z.of_nat (length (contents st1 (sig m1))) = 3 /\
    (forall (i : nat) (x : Z),
       contents st1 (sig m1) !! i = Some x -> x = 2 ^ 64 - 1) /\
    exists m2 st2,
      NewMinhash hash0 3 st1 = (Done m2, st2) /\
      Similarity m1 m2 st2 = (Done (float64_one, None), st2).
Proof.
  split; [unfold max_int; lia|].
  apply (NewMinhash_initial_state hash0 hash0 3 store0). unfold max_int. lia.
Defined.

(** C6, as stated, fails: the slice [Signature] returns is the engine's
    own array, and a write through it changes what the engine's later
    [Signature] and [Push] calls observe. *)
Lemma Signature_alias_counterexample :
  exists m st1 s st2 st3 st3',
    NewMinhash hash0 1 store0 = (Done m, st1) /\
    Signature m st1 = (Done s, st1) /\
    contents st1 (sig m) = [2 ^ 64 - 1] /\
    slice_set s 0 7 st1 = (Done tt, st2) /\
    contents st2 (sig m) = [7] /\
    Push m [x01] st1 = (Done tt, st3) /\ contents st3 (sig m) = [1000] /\
    Push m [x01] st2 = (Done tt, st3') /\ contents st3' (sig m) = [7].
Proof.
  eexists _, _, _, _, _, _.
  split; [apply NewMinhash_run; lia|].
  split; [reflexivity|]. split; [reflexivity|].
  split; [reflexivity|]. split; [reflexivity|].
  split; [apply Push_run|]. split; [reflexivity|].
  split; [apply Push_run|]. reflexivity.
Qed.

(** C6, amended. [Signature] returns the engine's own signature slice (not
    a copy) and leaves the store as it was; a write of [v] through the
    returned slice at an index [i] within its length succeeds and is a
    write to the engine's slot [i]: the engine's signature then holds [v]
    at [i] and its other slots as before. *)
Theorem Signature_returns_own_slice (m : Minhash) (st : store) :
  exists s,
    Signature m st = (Done s, st) /\
    s = sig m /\
    forall (i : nat) (v : Z), (i < length (contents st s))%nat ->
      exists st',
        slice_set s i v st = (Done tt, st') /\
        contents st' (sig m) = <[i := v]> (contents st (sig m)).
Proof.
  exists (sig m). split; [reflexivity|]. split; [reflexivity|].
  intros i v Hi. eexists. split.
  - unfold slice_set. now rewrite decide_True by exact Hi.
  - apply contents_set_heap_eq.
Qed.

Lemma Signature_returns_own_slice_witness :
  Nat.lt 1 (length (contents (store12 [5; 2; 9] [3; 4]) (sig engine1))) /\
  exists st',
    slice_set (sig engine1) 1 0 (store12 [5; 2; 9] [3; 4]) = (Done tt, st') /\
    contents st' (sig engine1) = [5; 0; 9].
Proof.
  destruct (Signature_returns_own_slice engine1 (store12 [5; 2; 9] [3; 4]))
    as (s & _ & -> & Hw).
  split; [vm_compute; lia|].
  apply (Hw 1%nat 0). vm_compute. lia.
Defined.

(** C7. Two engines freshly built with the same hash function and the same
    size end up with identical signatures when the elements of one list are
    pushed onto the first and those of any permutation of that list onto the
    second. *)
Theorem Push_order_independent
    (hf : HashFunc) (size : Z) (l1 l2 : list bytes) (st : store) :
  0 <= size ->
  l1 ≡ₚ l2 ->
  exists m1 st1 m2 st2 st3 st4,
    NewMinhash hf size st = (Done m1, st1) /\
    NewMinhash hf size st1 = (Done m2, st2) /\
    PushAll m1 l1 st2 = (Done tt, st3) /\
    PushAll m2 l2 st3 = (Done tt, st4) /\
    contents st4 (sig m1) = contents st4 (sig m2).
Proof.
  intros Hs Hp.
  set (m1 := {| sig := fresh (dom (heap st)); hashFunc := hf |}).
  set (st1 := new_store size st).
  set (m2 := {| sig := fresh (dom (heap st1)); hashFunc := hf |}).
  set (st2 := new_store size st1).
  exists m1, st1, m2, st2, (pushall_store m1 l1 st2),
    (pushall_store m2 l2 (pushall_store m1 l1 st2)).
  split; [now apply NewMinhash_run|]. split; [now apply NewMinhash_run|].
  split; [apply PushAll_run|]. split; [apply PushAll_run|].
  assert (Hal : is_Some (heap st1 !! sig m1)).
  { subst st1 m1. unfold new_store. simpl. rewrite lookup_insert_eq. eauto. }
  assert (Hne : sig m2 <> sig m1).
  { intros Heq. destruct Hal as [a Ha]. rewrite <- Heq in Ha.
    subst m2. simpl in Ha. rewrite fresh_unallocated in Ha. discriminate. }
  assert (H1 : contents st2 (sig m1) = replicate (Z.to_nat size) max_uint64).
  { subst st2. rewrite contents_new_store_ne by exact Hal.
    subst st1 m1. apply contents_new_store_eq. }
  assert (H2 : contents st2 (sig m2) = replicate (Z.to_nat size) max_uint64).
  { subst st2 m2. apply contents_new_store_eq. }
  rewrite !contents_pushall_store.
  destruct (decide (sig m2 = sig m1)) as [?|_]; [contradiction|].
  destruct (decide (sig m1 = sig m1)) as [_|?]; [|congruence].
  destruct (decide (sig m2 = sig m2)) as [_|?]; [|congruence].
  destruct (decide (sig m1 = sig m2)) as [?|_]; [congruence|].
  rewrite H1, H2. now apply pushall_sig_perm.
Qed.

Lemma Push_order_independent_witness :
  0 <= 2 /\
  [[x01]; [x02; x03]; []] ≡ₚ [[]; [x01]; [x02; x03]] /\
  exists m1 st1 m2 st2 st3 st4,
    NewMinhash hash0 2 store0 = (Done m1, st1) /\
    NewMinhash hash0 2 st1 = (Done m2, st2) /\
    PushAll m1 [[x01]; [x02; x03]; []] st2 = (Done tt, st3) /\
    PushAll m2 [[]; [x01]; [x02; x03]] st3 = (Done tt, st4) /\
    contents st4 (sig m1) = contents st4 (sig m2).
Proof.
  assert (Hp : [[x01]; [x02; x03]; []] ≡ₚ [[]; [x01]; [x02; x03]]).
  { apply perm_trans with [[x01]; []; [x02; x03]].
    - apply perm_skip, perm_swap.
    - apply perm_swap. }
  split; [lia|]. split; [exact Hp|].
  apply (Push_order_independent hash0 2 _ _ store0); [lia|exact Hp].
Defined.

(** C8. Pushing the same element a second time, right after the first,
    changes no slot of the signature (nor any other array): both calls
    return normally and the store holds the same arrays after the second
    push as after the first. *)
Theorem Push_twice_idempotent (m : Minhash) (b : bytes) (st : store) :
  exists st1 st2,
    Push m b st = (Done tt, st1) /\
    Push m b st1 = (Done tt, st2) /\
    contents st2 (sig m) = contents st1 (sig m) /\
    forall l : slice, contents st2 l = contents st1 l.
Proof.
  exists (push_store m b st), (push_store m b (push_store m b st)).
  split; [apply Push_run|]. split; [apply Push_run|].
  assert (H : forall l, contents (push_store m b (push_store m b st)) l =
                        contents (push_store m b st) l).
  { intros l. rewrite !contents_push_store.
    destruct (decide (sig m = l)); [apply push_sig_idem|reflexivity]. }
  split; [apply H|exact H].
Qed.

(** C9. [PushAll] on a list of byte sequences, and [PushStrings] on a list
    of strings, give exactly the outcome and store (hence the signature) of
    calling [Push] on each element, converted to bytes, one after the other
    in the same order; and that sequence of calls returns normally. *)
Theorem PushAll_PushStrings_sequential
    (m : Minhash) (bb : list bytes) (ss : list string) (st : store) :
  PushAll m bb st = push_sequentially m bb st /\
  PushStrings m ss st = push_sequentially m (list_byte_of_string <$> ss) st /\
  (exists st', push_sequentially m bb st = (Done tt, st')) /\
  (exists st', push_sequentially m (list_byte_of_string <$> ss) st = (Done tt, st')).
Proof.
  rewrite PushStrings_PushAll, !PushAll_run, !push_sequentially_run.
  repeat split; eauto.
Qed.

(** C10. When the other engine's signature is no longer than the
    receiver's, every index [Merge] visits is a valid index of the
    receiver's signature, [Merge] returns without an out-of-range access,
    and the receiver's slots from the other signature's length onwards are
    unchanged; when the other signature is strictly longer, [Merge] indexes
    the receiver's signature at its length, which is out of range. *)
Theorem Merge_index_range (m other : Minhash) (st : store) :
  ((length (contents st (sig other)) <= length (contents st (sig m)))%nat ->
     (forall i : nat, i ∈ seq 0 (length (contents st (sig other))) ->
        (i < length (contents st (sig m)))%nat) /\
     exists st',
       Merge m other st = (Done tt, st') /\
       forall i : nat, (length (contents st (sig other)) <= i)%nat ->
         contents st' (sig m) !! i = contents st (sig m) !! i) /\
  ((length (contents st (sig m)) < length (contents st (sig other)))%nat ->
     exists st',
       Merge m other st =
         (Panicked (IndexOutOfRange (length (contents st (sig m)))
                                    (length (contents st (sig m)))), st')).
Proof.
  split.
  - intros Hlen. split.
    + intros i Hi. apply elem_of_seq in Hi. lia.
    + exists (merge_store m other st). split; [now apply Merge_run|].
      intros i Hi. rewrite contents_merge_store.
      destruct (decide (sig m = sig m)) as [_|?]; [|congruence].
      unfold merge_sig, merge_slot. rewrite list_lookup_imap.
      rewrite (lookup_ge_None_2 (contents st (sig other)) i) by lia.
      now destruct (contents st (sig m) !! i).
  - intros Hlen. exists (merge_store m other st). now apply Merge_panics.
Qed.

Lemma Merge_index_range_witness :
  (exists st',
     Merge engine1 engine2 (store12 [5; 2; 9] [3; 4]) = (Done tt, st') /\
     forall i : nat, (2 <= i)%nat ->
       contents st' (sig engine1) !! i = [5; 2; 9] !! i) /\
  (exists st',
     Merge engine2 engine1 (store12 [5; 2; 9] [3; 4]) =
       (Panicked (IndexOutOfRange 2 2), st')).
Proof.
  split.
  - apply (proj1 (Merge_index_range engine1 engine2 (store12 [5; 2; 9] [3; 4]))).
    vm_compute. lia.
  - apply (proj2 (Merge_index_range engine2 engine1 (store12 [5; 2; 9] [3; 4]))).
    vm_compute. lia.
Defined.

(** ** Further properties *)

Lemma lookup_pushall_sig hf bb : forall sg i,
  pushall_sig hf bb sg !! i = slot_after hf bb i <$> sg !! i.
Proof.
  unfold pushall_sig, slot_after.
  induction bb as [|b bb IH]; intros sg i; simpl.
  - now destruct (sg !! i).
  - rewrite IH, lookup_push_sig. now destruct (sg !! i).
Qed.

Lemma slot_after_le hf bb i : forall x, slot_after hf bb i x <= x.
Proof.
  unfold slot_after. induction bb as [|b bb IH]; intros x; simpl; [lia|].
  etransitivity; [apply IH|]. rewrite push_slot_min. lia.
Qed.

Lemma slot_after_mono hf bb i : forall x y,
  x <= y -> slot_after hf bb i x <= slot_after hf bb i y.
Proof.
  unfold slot_after. induction bb as [|b bb IH]; intros x y Hxy; simpl; [lia|].
  apply IH. rewrite !push_slot_min. lia.
Qed.

Lemma slot_after_lower hf bb i : forall x b,
  b ∈ bb -> slot_after hf bb i x <= slot_hash (hf b) i.
Proof.
  induction bb as [|c bb IH]; intros x b Hb.
  - now apply elem_of_nil in Hb.
  - apply elem_of_cons in Hb as [->|Hb].
    + change (slot_after hf (c :: bb) i x)
        with (slot_after hf bb i (push_slot (hf c) i x)).
      etransitivity; [apply slot_after_le|]. rewrite push_slot_min. lia.
    + apply (IH _ _ Hb).
Qed.

Lemma slot_after_attained hf bb i : forall x,
  slot_after hf bb i x = x \/
  exists b, b ∈ bb /\ slot_after hf bb i x = slot_hash (hf b) i.
Proof.
  induction bb as [|c bb IH]; intros x; [now left|].
  change (slot_after hf (c :: bb) i x)
    with (slot_after hf bb i (push_slot (hf c) i x)).
  destruct (IH (push_slot (hf c) i x)) as [->|(b & Hb & ->)].
  - unfold push_slot. destruct (slot_hash (hf c) i <? x); [right|now left].
    exists c. split; [now left|reflexivity].
  - right. exists b. split; [now right|reflexivity].
Qed.

Lemma slot_after_subset hf l1 l2 i x :
  (forall b, b ∈ l1 -> b ∈ l2) -> slot_after hf l2 i x <= slot_after hf l1 i x.
Proof.
  intros Hsub. destruct (slot_after_attained hf l1 i x) as [->|(b & Hb & ->)].
  - apply slot_after_le.
  - apply slot_after_lower. now apply Hsub.
Qed.

Lemma slot_after_min hf bb i : forall a b,
  slot_after hf bb i (Z.min a b) = Z.min a (slot_after hf bb i b).
Proof.
  unfold slot_after. induction bb as [|c bb IH]; intros a b; simpl; [reflexivity|].
  rewrite <- IH. f_equal. rewrite !push_slot_min. lia.
Qed.

Lemma slot_after_app hf l1 l2 i x :
  slot_after hf (l1 ++ l2) i x = slot_after hf l2 i (slot_after hf l1 i x).
Proof. unfold slot_after. apply foldl_app. Qed.

Lemma pushall_sig_same_elements hf l1 l2 sg :
  (forall b, b ∈ l1 <-> b ∈ l2) -> pushall_sig hf l1 sg = pushall_sig hf l2 sg.
Proof.
  intros Hset. apply list_eq. intros i. rewrite !lookup_pushall_sig.
  destruct (sg !! i) as [x|]; simpl; [|reflexivity]. f_equal.
  apply Z.le_antisymm; apply slot_after_subset; intros b; apply Hset.
Qed.

Lemma merge_sig_pushall hf l1 l2 sg :
  merge_sig (pushall_sig hf l2 sg) (pushall_sig hf l1 sg) =
    pushall_sig hf (l1 ++ l2) sg.
Proof.
  apply list_eq. intros i. unfold merge_sig.
  rewrite list_lookup_imap, !lookup_pushall_sig.
  unfold merge_slot. rewrite lookup_pushall_sig.
  destruct (sg !! i) as [x|]; simpl; [|reflexivity]. f_equal.
  rewrite slot_after_app.
  pose proof (slot_after_le hf l1 i x) as Hle.
  replace (slot_after hf l1 i x) with (Z.min (slot_after hf l1 i x) x) at 3 by lia.
  rewrite slot_after_min.
  destruct (Z.ltb_spec (slot_after hf l2 i x) (slot_after hf l1 i x)); lia.
Qed.

Lemma length_pushall_sig hf bb : forall sg, length (pushall_sig hf bb sg) = length sg.
Proof.
  unfold pushall_sig. induction bb as [|b bb IH]; intros sg; simpl; [reflexivity|].
  rewrite IH. apply length_imap.
Qed.

Lemma hash_calls_pushall_store m bb : forall st,
  hash_calls (pushall_store m bb st) = hash_calls st ++ bb.
Proof.
  unfold pushall_store. induction bb as [|b bb IH]; intros st; simpl.
  - now rewrite app_nil_r.
  - rewrite IH. simpl. now rewrite <- app_assoc.
Qed.

(** X1. [PushAll] returns normally and leaves in every slot [i] of the
    signature the minimum of what the slot held and of the simulated i-th
    hash values of the pushed elements: the new value is at most the old
    one and at most the hash value of every pushed element, and it is the
    old value or the hash value of one of the pushed elements. *)
Theorem PushAll_slot_minimum (m : Minhash) (bb : list bytes) (st : store) :
  exists st',
    PushAll m bb st = (Done tt, st') /\
    forall (i : nat) (x : Z),
      contents st (sig m) !! i = Some x ->
      exists y,
        contents st' (sig m) !! i = Some y /\
        y <= x /\
        (forall b, b ∈ bb -> y <= slot_hash (hashFunc m b) i) /\
        (y = x \/ exists b, b ∈ bb /\ y = slot_hash (hashFunc m b) i).
Proof.
  exists (pushall_store m bb st). split; [apply PushAll_run|].
  intros i x Hx. exists (slot_after (hashFunc m) bb i x).
  rewrite contents_pushall_store, decide_True by reflexivity.
  rewrite lookup_pushall_sig, Hx.
  split; [reflexivity|]. split; [apply slot_after_le|].
  split; [intros b Hb; now apply slot_after_lower|apply slot_after_attained].
Qed.

(** X2. From the same store, two batches with the same set of elements
    (whatever their order and their repetitions) leave every array, the
    signature included, with the same contents. *)
Theorem PushAll_same_elements (m : Minhash) (l1 l2 : list bytes) (st : store) :
  (forall b, b ∈ l1 <-> b ∈ l2) ->
  exists st1 st2,
    PushAll m l1 st = (Done tt, st1) /\
    PushAll m l2 st = (Done tt, st2) /\
    forall l : slice, contents st1 l = contents st2 l.
Proof.
  intros Hset. exists (pushall_store m l1 st), (pushall_store m l2 st).
  split; [apply PushAll_run|]. split; [apply PushAll_run|].
  intros l. rewrite !contents_pushall_store.
  destruct (decide (sig m = l)); [|reflexivity].
  now apply pushall_sig_same_elements.
Qed.

Lemma PushAll_same_elements_witness :
  (forall b : bytes, b ∈ [[x01]; [x02]; [x01]] <-> b ∈ [[x02]; [x01]]) /\
  exists st1 st2,
    PushAll engine1 [[x01]; [x02]; [x01]] (store12 [5000; 1500] []) = (Done tt, st1) /\
    PushAll engine1 [[x02]; [x01]] (store12 [5000; 1500] []) = (Done tt, st2) /\
    forall l : slice, contents st1 l = contents st2 l.
Proof.
  assert (H : forall b : bytes, b ∈ [[x01]; [x02]; [x01]] <-> b ∈ [[x02]; [x01]]).
  { intros b. rewrite !elem_of_cons, !elem_of_nil. tauto. }
  split; [exact H|].
  apply (PushAll_same_elements engine1 _ _ (store12 [5000; 1500] []) H).
Defined.

(** X9. [Merge] builds the signature of the union: for two engines with
    their own arrays, the same hash function and the same starting
    signature, pushing [l1] onto the first, [l2] onto the second and merging
    the second into the first leaves in the first the signature that pushing
    [l1 ++ l2] onto it would have left. *)
Theorem Merge_gives_union (a b : Minhash) (l1 l2 : list bytes) (st : store) :
  sig a <> sig b ->
  hashFunc a = hashFunc b ->
  contents st (sig a) = contents st (sig b) ->
  exists st1 st2 st3 st',
    PushAll a l1 st = (Done tt, st1) /\
    PushAll b l2 st1 = (Done tt, st2) /\
    Merge a b st2 = (Done tt, st3) /\
    PushAll a (l1 ++ l2) st = (Done tt, st') /\
    contents st3 (sig a) = contents st' (sig a).
Proof.
  intros Hne Hhf Hsg.
  set (st1 := pushall_store a l1 st). set (st2 := pushall_store b l2 st1).
  assert (Ha : contents st2 (sig a) = pushall_sig (hashFunc a) l1 (contents st (sig a))).
  { subst st2 st1. rewrite !contents_pushall_store.
    rewrite decide_False by congruence. now rewrite decide_True. }
  assert (Hb : contents st2 (sig b) = pushall_sig (hashFunc a) l2 (contents st (sig a))).
  { subst st2 st1. rewrite !contents_pushall_store.
    rewrite decide_True by reflexivity. rewrite decide_False by exact Hne.
    now rewrite Hhf, Hsg. }
  exists st1, st2, (merge_store a b st2), (pushall_store a (l1 ++ l2) st).
  split; [apply PushAll_run|]. split; [apply PushAll_run|].
  split. { apply Merge_run. rewrite Ha, Hb, !length_pushall_sig. lia. }
  split; [apply PushAll_run|].
  rewrite contents_merge_store, decide_True by reflexivity.
  rewrite Ha, Hb, merge_sig_pushall.
  now rewrite contents_pushall_store, decide_True.
Qed.

Lemma Merge_gives_union_witness :
  sig engine1 <> sig engine2 /\
  hashFunc engine1 = hashFunc engine2 /\
  contents (store12 [5000; 1500] [5000; 1500]) (sig engine1) =
    contents (store12 [5000; 1500] [5000; 1500]) (sig engine2) /\
  exists st1 st2 st3 st',
    PushAll engine1 [[x01]] (store12 [5000; 1500] [5000; 1500]) = (Done tt, st1) /\
    PushAll engine2 [[x02; x03]] st1 = (Done tt, st2) /\
    Merge engine1 engine2 st2 = (Done tt, st3) /\
    PushAll engine1 ([[x01]] ++ [[x02; x03]]) (store12 [5000; 1500] [5000; 1500]) =
      (Done tt, st') /\
    contents st3 (sig engine1) = contents st' (sig engine1).
Proof.
  assert (Hne : sig engine1 <> sig engine2) by (vm_compute; discriminate).
  split; [exact Hne|]. split; [reflexivity|]. split; [reflexivity|].
  apply (Merge_gives_union engine1 engine2 _ _ _ Hne); reflexivity.
Defined.


Lemma lookup_merge_sig o mine i :
  merge_sig o mine !! i = merge_slot o i <$> mine !! i.
Proof. apply list_lookup_imap. Qed.

Lemma merge_slot_min o i x :
  merge_slot o i x = match o !! i with Some y => Z.min x y | None => x end.
Proof.
  unfold merge_slot. destruct (o !! i) as [y|]; [|reflexivity].
  destruct (Z.ltb_spec y x); lia.
Qed.

Lemma Merge_outcome m other st :
  exists r, Merge m other st = (r, merge_store m other st) /\
    (r = Done tt <->
     (length (contents st (sig other)) <= length (contents st (sig m)))%nat).
Proof.
  destruct (le_lt_dec (length (contents st (sig other)))
                      (length (contents st (sig m)))) as [Hle|Hlt].
  - exists (Done tt). split; [now apply Merge_run|]. tauto.
  - eexists. split; [now apply Merge_panics|].
    split; [discriminate|lia].
Qed.

(** X6. The whole effect of [Merge], whatever the two lengths: it returns
    normally exactly when the other signature is no longer than the
    receiver's; whether it returns or panics, every receiver slot [i] ends
    at the minimum of its value and the other's value at [i] where the
    other signature has a slot [i], and is unchanged where it has none.  So
    a panicking [Merge] has already merged every slot of the receiver.  The
    lengths, the other signature, every other array and the record of hash
    calls are unchanged. *)
Theorem Merge_effect_any_length (m other : Minhash) (st : store) :
  exists r st',
    Merge m other st = (r, st') /\
    (r = Done tt <->
     (length (contents st (sig other)) <= length (contents st (sig m)))%nat) /\
    (forall (i : nat) (x : Z),
       contents st (sig m) !! i = Some x ->
       contents st' (sig m) !! i =
         Some (match contents st (sig other) !! i with
               | Some y => Z.min x y
               | None => x
               end)) /\
    length (contents st' (sig m)) = length (contents st (sig m)) /\
    contents st' (sig other) = contents st (sig other) /\
    (forall l : slice, l <> sig m -> contents st' l = contents st l) /\
    hash_calls st' = hash_calls st.
Proof.
  destruct (Merge_outcome m other st) as (r & Hrun & Hr).
  exists r, (merge_store m other st). split; [exact Hrun|]. split; [exact Hr|].
  rewrite !contents_merge_store, decide_True by reflexivity.
  split.
  { intros i x Hx. now rewrite lookup_merge_sig, Hx, <- merge_slot_min. }
  split; [apply length_imap|]. split.
  { destruct (decide (sig m = sig other)) as [Heq|_]; [|reflexivity].
    apply merge_sig_self. }
  split; [|reflexivity].
  intros l Hl. rewrite contents_merge_store. now rewrite decide_False by congruence.
Qed.

Lemma merge_sig_comm a b :
  length a = length b -> merge_sig b a = merge_sig a b.
Proof.
  intros Hlen. apply list_eq. intros i. rewrite !lookup_merge_sig.
  destruct (a !! i) as [x|] eqn:Hx; destruct (b !! i) as [y|] eqn:Hy; simpl;
    try reflexivity.
  - f_equal. rewrite !merge_slot_min, Hx, Hy. lia.
  - apply lookup_lt_Some in Hx. apply lookup_ge_None in Hy. lia.
  - apply lookup_lt_Some in Hy. apply lookup_ge_None in Hx. lia.
Qed.

Lemma merge_sig_idem o a : merge_sig o (merge_sig o a) = merge_sig o a.
Proof.
  apply list_eq. intros i. rewrite !lookup_merge_sig.
  destruct (a !! i) as [x|]; simpl; [|reflexivity]. f_equal.
  rewrite !merge_slot_min. destruct (o !! i); lia.
Qed.

Lemma merge_sig_absorb o a :
  length a = length o -> merge_sig (merge_sig o a) o = merge_sig o a.
Proof.
  intros Hlen. apply list_eq. intros i. rewrite !lookup_merge_sig.
  destruct (o !! i) as [y|] eqn:Hy; destruct (a !! i) as [x|] eqn:Hx; simpl.
  - f_equal. rewrite !merge_slot_min, lookup_merge_sig, Hx, Hy. simpl.
    rewrite merge_slot_min, Hy. lia.
  - apply lookup_lt_Some in Hy. apply lookup_ge_None in Hx. lia.
  - apply lookup_lt_Some in Hx. apply lookup_ge_None in Hy. lia.
  - reflexivity.
Qed.

(** X7. On signatures of equal length [Merge] is commutative in its
    result: [a.Merge(b)] leaves in [a] what [b.Merge(a)], run from the same
    store, leaves in [b]. *)
Theorem Merge_commutes (a b : Minhash) (st : store) :
  length (contents st (sig a)) = length (contents st (sig b)) ->
  exists st1 st2,
    Merge a b st = (Done tt, st1) /\
    Merge b a st = (Done tt, st2) /\
    contents st1 (sig a) = contents st2 (sig b).
Proof.
  intros Hlen. exists (merge_store a b st), (merge_store b a st).
  split; [apply Merge_run; lia|]. split; [apply Merge_run; lia|].
  rewrite !contents_merge_store, !decide_True by reflexivity.
  now apply merge_sig_comm.
Qed.

Lemma Merge_commutes_witness :
  length (contents (store12 [5; 2] [3; 4]) (sig engine1)) =
    length (contents (store12 [5; 2] [3; 4]) (sig engine2)) /\
  exists st1 st2,
    Merge engine1 engine2 (store12 [5; 2] [3; 4]) = (Done tt, st1) /\
    Merge engine2 engine1 (store12 [5; 2] [3; 4]) = (Done tt, st2) /\
    contents st1 (sig engine1) = contents st2 (sig engine2).
Proof.
  split; [reflexivity|].
  apply (Merge_commutes engine1 engine2 (store12 [5; 2] [3; 4])). reflexivity.
Defined.

(** X8. On signatures of equal length, repeating [a.Merge(b)] changes no
    array, and [b.Merge(a)] after [a.Merge(b)] leaves the two signatures
    identical. *)
Theorem Merge_again_and_back (a b : Minhash) (st : store) :
  length (contents st (sig a)) = length (contents st (sig b)) ->
  exists st1 st2 st3,
    Merge a b st = (Done tt, st1) /\
    Merge a b st1 = (Done tt, st2) /\
    (forall l : slice, contents st2 l = contents st1 l) /\
    Merge b a st1 = (Done tt, st3) /\
    contents st3 (sig b) = contents st3 (sig a).
Proof.
  intros Hlen.
  set (st1 := merge_store a b st).
  assert (Ha1 : contents st1 (sig a) =
                merge_sig (contents st (sig b)) (contents st (sig a))).
  { subst st1. now rewrite contents_merge_store, decide_True. }
  assert (Hb1 : contents st1 (sig b) = contents st (sig b)).
  { subst st1. rewrite contents_merge_store.
    destruct (decide (sig a = sig b)) as [Heq|_]; [|reflexivity].
    apply merge_sig_self. }
  assert (Hlen1 : length (contents st1 (sig a)) = length (contents st1 (sig b))).
  { rewrite Ha1, Hb1. unfold merge_sig. now rewrite length_imap. }
  exists st1, (merge_store a b st1), (merge_store b a st1).
  split; [apply Merge_run; lia|]. split; [apply Merge_run; lia|]. split.
  { intros l. rewrite contents_merge_store.
    destruct (decide (sig a = l)) as [<-|_]; [|reflexivity].
    rewrite Ha1, Hb1. apply merge_sig_idem. }
  split; [apply Merge_run; lia|].
  rewrite !contents_merge_store, decide_True by reflexivity.
  destruct (decide (sig b = sig a)) as [Heq|_].
  - now rewrite Heq.
  - rewrite Ha1, Hb1. now apply merge_sig_absorb.
Qed.

Lemma Merge_again_and_back_witness :
  length (contents (store12 [5; 2] [3; 4]) (sig engine1)) =
    length (contents (store12 [5; 2] [3; 4]) (sig engine2)) /\
  exists st1 st2 st3,
    Merge engine1 engine2 (store12 [5; 2] [3; 4]) = (Done tt, st1) /\
    Merge engine1 engine2 st1 = (Done tt, st2) /\
    (forall l : slice, contents st2 l = contents st1 l) /\
    Merge engine2 engine1 st1 = (Done tt, st3) /\
    contents st3 (sig engine2) = contents st3 (sig engine1).
Proof.
  split; [reflexivity|].
  apply (Merge_again_and_back engine1 engine2 (store12 [5; 2] [3; 4])). reflexivity.
Defined.




Lemma float64_ratio_finite (k n : Z) :
  0 < k <= n -> n <= max_int ->
  exists m e,
    float64_div (float64_of_int k) (float64_of_int n) = S754_finite false m e /\
    float64_le_one m e.
Proof.
  intros Hk Hn. destruct n as [|pn|pn]; [lia| |lia].
  destruct k as [|pk|pk]; [lia| |lia].
  destruct (float64_of_int_key pn ltac:(lia)) as (mn & en & -> & Hdn & Hen & Hvn).
  destruct (float64_of_int_key pk ltac:(lia)) as (mk & ek & -> & Hdk & Hek & Hvk).
  pose proof (rounded_int_mono pk pn ltac:(lia)) as Hmono.
  apply float64_div_le_one; [exact Hdk|exact Hdn|lia|lia|].
  apply key_order; [exact Hdk|exact Hdn|lia|lia|].
  rewrite Hvk, Hvn. apply Z.mul_le_mono_nonneg_r; lia.
Qed.

Lemma float64_ratio_zero (n : Z) :
  0 < n <= max_int ->
  float64_div (float64_of_int 0) (float64_of_int n) = float64_zero.
Proof.
  intros Hn. destruct (float64_of_int_finite n Hn) as (m & e & ->). reflexivity.
Qed.

Lemma equal_slots_zero xs ys :
  length xs = length ys ->
  equal_slots xs ys = 0%nat <->
  forall (i : nat) (x y : Z), xs !! i = Some x -> ys !! i = Some y -> x <> y.
Proof.
  intros Hlen. unfold equal_slots.
  assert (Hf : forall l : list nat,
    length (filter (fun i => xs !! i = ys !! i) l) = 0%nat <->
    forall i, i ∈ l -> xs !! i <> ys !! i).
  { induction l as [|i l IH].
    - split; [intros _ i Hi; now apply elem_of_nil in Hi|reflexivity].
    - rewrite filter_cons. destruct (decide (xs !! i = ys !! i)) as [He|He]; simpl.
      + split; [discriminate|]. intros H. exfalso. apply (H i); [now left|exact He].
      + rewrite IH. split.
        * intros H j Hj. apply elem_of_cons in Hj as [->|Hj]; auto.
        * intros H j Hj. apply H. now right. }
  rewrite Hf. split.
  - intros H i x y Hx Hy Hxy. apply (H i).
    + apply elem_of_seq. apply lookup_lt_Some in Hx. lia.
    + congruence.
  - intros H i Hi Heq. apply elem_of_seq in Hi.
    destruct (lookup_lt_is_Some_2 xs i ltac:(lia)) as [x Hx].
    destruct (lookup_lt_is_Some_2 ys i ltac:(lia)) as [y Hy].
    apply (H i x y Hx Hy). congruence.
Qed.

(** X11. Two engines whose signatures have the same contents, of non-zero
    length (an [int]), have similarity exactly [1.0], with no error; in
    particular an engine compared with itself. *)
Theorem Similarity_identical (a b : Minhash) (st : store) :
  contents st (sig a) = contents st (sig b) ->
  0 < Z.of_nat (length (contents st (sig a))) <= max_int ->
  Similarity a b st = (Done (float64_one, None), st).
Proof.
  intros Heq Hlen. rewrite Similarity_run by now rewrite Heq.
  rewrite <- Heq, equal_slots_self.
  destruct (float64_of_int_finite _ Hlen) as (m & e & ->).
  now rewrite float64_div_self.
Qed.

Lemma Similarity_identical_witness :
  contents (store12 [5; 2] [5; 2]) (sig engine1) =
    contents (store12 [5; 2] [5; 2]) (sig engine2) /\
  Similarity engine1 engine2 (store12 [5; 2] [5; 2]) =
    (Done (float64_one, None), store12 [5; 2] [5; 2]).
Proof.
  split; [reflexivity|].
  apply (Similarity_identical engine1 engine2 (store12 [5; 2] [5; 2])).
  - reflexivity.
  - vm_compute. split; [reflexivity|discriminate].
Defined.

(** X12. On signatures of equal non-zero length (an [int]) the estimate is
    [0.0] exactly when the two signatures agree at no slot. *)
Theorem Similarity_zero_iff (a b : Minhash) (st : store) :
  length (contents st (sig a)) = length (contents st (sig b)) ->
  0 < Z.of_nat (length (contents st (sig a))) <= max_int ->
  exists r,
    Similarity a b st = (Done (r, None), st) /\
    (r = float64_zero <->
     forall (i : nat) (x y : Z),
       contents st (sig a) !! i = Some x ->
       contents st (sig b) !! i = Some y -> x <> y).
Proof.
  intros Heq Hlen. rewrite Similarity_run by exact Heq.
  eexists. split; [reflexivity|].
  rewrite <- (equal_slots_zero _ _ Heq).
  pose proof (equal_slots_le (contents st (sig a)) (contents st (sig b))) as Hle.
  destruct (equal_slots (contents st (sig a)) (contents st (sig b))) as [|k] eqn:Hk.
  - split; [reflexivity|]. intros _. now apply float64_ratio_zero.
  - destruct (float64_ratio_finite (Z.of_nat (S k))
                (Z.of_nat (length (contents st (sig a)))) ltac:(lia) ltac:(lia))
      as (m & e & -> & _).
    split; discriminate.
Qed.

Lemma Similarity_zero_iff_witness :
  length (contents (store12 [5; 2] [3; 4]) (sig engine1)) =
    length (contents (store12 [5; 2] [3; 4]) (sig engine2)) /\
  exists r,
    Similarity engine1 engine2 (store12 [5; 2] [3; 4]) =
      (Done (r, None), store12 [5; 2] [3; 4]) /\
    (r = float64_zero <->
     forall (i : nat) (x y : Z),
       contents (store12 [5; 2] [3; 4]) (sig engine1) !! i = Some x ->
       contents (store12 [5; 2] [3; 4]) (sig engine2) !! i = Some y -> x <> y).
Proof.
  split; [reflexivity|].
  apply (Similarity_zero_iff engine1 engine2 (store12 [5; 2] [3; 4])).
  - reflexivity.
  - vm_compute. split; [reflexivity|discriminate].
Defined.

(** X14. Two engines with the same hash function and the same starting
    signature (of non-zero length, an [int]) that are fed the same set of
    elements, in any order and with any repetitions, have similarity
    exactly [1.0]. *)
Theorem Similarity_same_elements
    (a b : Minhash) (l1 l2 : list bytes) (st : store) :
  hashFunc a = hashFunc b ->
  contents st (sig a) = contents st (sig b) ->
  0 < Z.of_nat (length (contents st (sig a))) <= max_int ->
  (forall x, x ∈ l1 <-> x ∈ l2) ->
  exists st1 st2,
    PushAll a l1 st = (Done tt, st1) /\
    PushAll b l2 st1 = (Done tt, st2) /\
    Similarity a b st2 = (Done (float64_one, None), st2).
Proof.
  intros Hhf Hsg Hlen Hset.
  set (st1 := pushall_store a l1 st). set (st2 := pushall_store b l2 st1).
  exists st1, st2. split; [apply PushAll_run|]. split; [apply PushAll_run|].
  assert (Hb : contents st2 (sig b) =
               pushall_sig (hashFunc b) l2 (contents st1 (sig b))).
  { subst st2. now rewrite contents_pushall_store, decide_True. }
  assert (Heq : contents st2 (sig a) = contents st2 (sig b)).
  { destruct (decide (sig a = sig b)) as [He|Hne]; [now rewrite He|].
    rewrite Hb. subst st2 st1. rewrite !contents_pushall_store.
    rewrite (decide_False (P := sig b = sig a)) by congruence.
    rewrite decide_True by reflexivity.
    rewrite (decide_False (P := sig a = sig b)) by exact Hne.
    rewrite Hhf, Hsg. now apply pushall_sig_same_elements. }
  assert (Hl : 0 < Z.of_nat (length (contents st2 (sig a))) <= max_int).
  { rewrite Heq, Hb, length_pushall_sig. subst st1.
    rewrite contents_pushall_store.
    destruct (decide (sig a = sig b)) as [He|_].
    - rewrite length_pushall_sig, <- He. exact Hlen.
    - rewrite <- Hsg. exact Hlen. }
  rewrite Similarity_run by now rewrite Heq.
  rewrite <- Heq, equal_slots_self.
  destruct (float64_of_int_finite _ Hl) as (m & e & ->).
  now rewrite float64_div_self.
Qed.

Lemma Similarity_same_elements_witness :
  exists st1 st2,
    PushAll engine1 [[x01]; [x02]; [x01]] (store12 [5000; 1500] [5000; 1500]) =
      (Done tt, st1) /\
    PushAll engine2 [[x02]; [x01]] st1 = (Done tt, st2) /\
    Similarity engine1 engine2 st2 = (Done (float64_one, None), st2).
Proof.
  apply (Similarity_same_elements engine1 engine2 _ _
           (store12 [5000; 1500] [5000; 1500])).
  - reflexivity.
  - reflexivity.
  - vm_compute. split; [reflexivity|discriminate].
  - intros b. rewrite !elem_of_cons, !elem_of_nil. tauto.
Defined.


Lemma contents_insert_fresh st a l :
  is_Some (heap st !! l) ->
  contents (set_heap st (<[fresh (dom (heap st)) := a]> (heap st))) l = contents st l.
Proof.
  intros [x Hx]. apply contents_set_heap_ne. intros <-.
  rewrite fresh_unallocated in Hx. discriminate.
Qed.

(** X16. For [0 <= size], [NewMinhash] returns an engine bound to the
    given hash function whose signature is a newly allocated array of [size]
    slots at [2^64 - 1] ([size = 0] gives an empty signature); arrays that
    existed keep their contents and no hash call is made.  For [size < 0] it
    panics ([make] with a negative length) and leaves the store as it
    was. *)
Theorem NewMinhash_fresh (hf : HashFunc) (size : Z) (st : store) :
  (0 <= size ->
   exists m st',
     NewMinhash hf size st = (Done m, st') /\
     hashFunc m = hf /\
     heap st !! sig m = None /\
     contents st' (sig m) = replicate (Z.to_nat size) (2 ^ 64 - 1) /\
     (forall l : slice, is_Some (heap st !! l) -> contents st' l = contents st l) /\
     hash_calls st' = hash_calls st) /\
  (size < 0 -> NewMinhash hf size st = (Panicked MakesliceLenOutOfRange, st)).
Proof.
  split.
  - intros Hs. eexists _, _. split; [now apply NewMinhash_run|].
    split; [reflexivity|]. split; [apply fresh_unallocated|].
    split; [apply contents_new_store_eq|].
    split; [intros l Hl; now apply contents_new_store_ne|reflexivity].
  - apply NewMinhash_negative.
Qed.

Lemma NewMinhash_fresh_witness :
  (exists m st',
     NewMinhash hash0 2 (store12 [5; 2] [3; 4]) = (Done m, st') /\
     hashFunc m = hash0 /\
     heap (store12 [5; 2] [3; 4]) !! sig m = None /\
     contents st' (sig m) = replicate (Z.to_nat 2) (2 ^ 64 - 1) /\
     (forall l : slice, is_Some (heap (store12 [5; 2] [3; 4]) !! l) ->
        contents st' l = contents (store12 [5; 2] [3; 4]) l) /\
     hash_calls st' = hash_calls (store12 [5; 2] [3; 4])) /\
  NewMinhash hash0 (-1) (store12 [5; 2] [3; 4]) =
    (Panicked MakesliceLenOutOfRange, store12 [5; 2] [3; 4]).
Proof.
  split.
  - apply (proj1 (NewMinhash_fresh hash0 2 (store12 [5; 2] [3; 4]))). lia.
  - apply (proj2 (NewMinhash_fresh hash0 (-1) (store12 [5; 2] [3; 4]))). lia.
Defined.

(** X17. [NewMinhashFromSigs] always returns an engine bound to the given
    hash function whose signature is a newly allocated array holding the
    contents of the given signature; the given signature and every other
    existing array keep their contents, and no hash call is made. *)
Theorem NewMinhashFromSigs_copies (hf : HashFunc) (src : slice) (st : store) :
  exists m st',
    NewMinhashFromSigs hf src st = (Done m, st') /\
    hashFunc m = hf /\
    heap st !! sig m = None /\
    contents st' (sig m) = contents st src /\
    (forall l : slice, is_Some (heap st !! l) -> contents st' l = contents st l) /\
    hash_calls st' = hash_calls st.
Proof.
  eexists _, _. split; [apply NewMinhashFromSigs_run|].
  split; [reflexivity|]. split; [apply fresh_unallocated|].
  split; [apply contents_set_heap_eq|].
  split; [intros l Hl; now apply contents_insert_fresh|reflexivity].
Qed.

(** X18. The engine [NewMinhashFromSigs] builds and the signature it was
    built from are independent: a [Push] on the new engine leaves the source
    as it was, and a write to the source leaves the new engine's signature
    as it was. *)
Theorem NewMinhashFromSigs_independent (hf : HashFunc) (src : slice) (st : store) :
  is_Some (heap st !! src) ->
  exists m st1,
    NewMinhashFromSigs hf src st = (Done m, st1) /\
    (forall b : bytes, exists st2,
       Push m b st1 = (Done tt, st2) /\ contents st2 src = contents st src) /\
    (forall (i : nat) (v : Z), (i < length (contents st src))%nat ->
       exists st3,
         slice_set src i v st1 = (Done tt, st3) /\
         contents st3 src = <[i := v]> (contents st src) /\
         contents st3 (sig m) = contents st src).
Proof.
  intros Hsrc.
  set (l := fresh (dom (heap st))).
  set (st1 := set_heap st (<[l := contents st src]> (heap st))).
  assert (Hne : l <> src).
  { intros Heq. destruct Hsrc as [a Ha]. rewrite <- Heq in Ha.
    subst l. rewrite fresh_unallocated in Ha. discriminate. }
  assert (Hs1 : contents st1 src = contents st src).
  { subst st1. now apply contents_set_heap_ne. }
  exists {| sig := l; hashFunc := hf |}, st1.
  split; [apply NewMinhashFromSigs_run|]. split.
  - intros b. eexists. split; [apply Push_run|].
    rewrite contents_push_store. simpl. now rewrite decide_False by exact Hne.
  - intros i v Hi. eexists. split.
    + unfold slice_set. rewrite Hs1. now rewrite decide_True by exact Hi.
    + split; [apply contents_set_heap_eq|].
      rewrite contents_set_heap_ne by (simpl; intros E; apply Hne; now symmetry).
      subst st1. apply contents_set_heap_eq.
Qed.

Lemma NewMinhashFromSigs_independent_witness :
  is_Some (heap (store12 [5; 2] [3; 4]) !! 1%positive) /\
  exists m st1,
    NewMinhashFromSigs hash0 1%positive (store12 [5; 2] [3; 4]) = (Done m, st1) /\
    (forall b : bytes, exists st2,
       Push m b st1 = (Done tt, st2) /\
       contents st2 1%positive = contents (store12 [5; 2] [3; 4]) 1%positive) /\
    (forall (i : nat) (v : Z),
       Nat.lt i (length (contents (store12 [5; 2] [3; 4]) 1%positive)) ->
       exists st3,
         slice_set 1%positive i v st1 = (Done tt, st3) /\
         contents st3 1%positive =
           <[i := v]> (contents (store12 [5; 2] [3; 4]) 1%positive) /\
         contents st3 (sig m) = contents (store12 [5; 2] [3; 4]) 1%positive).
Proof.
  assert (H : is_Some (heap (store12 [5; 2] [3; 4]) !! 1%positive))
    by (vm_compute; eauto).
  split; [exact H|].
  apply (NewMinhashFromSigs_independent hash0 1%positive (store12 [5; 2] [3; 4]) H).
Defined.

(** X5. [Push] allocates nothing and writes to no array but the engine's
    own: the set of arrays and every other array are as before, and no
    array, the signature included, changes its length. *)
Theorem Push_frame (m : Minhash) (b : bytes) (st : store) :
  exists st',
    Push m b st = (Done tt, st') /\
    dom (heap st') = dom (heap st) /\
    (forall l : slice, l <> sig m -> heap st' !! l = heap st !! l) /\
    (forall l : slice, length (contents st' l) = length (contents st l)).
Proof.
  exists (push_store m b st). split; [apply Push_run|].
  unfold push_store. simpl. split; [apply dom_alter_L|]. split.
  - intros l Hl. now rewrite lookup_alter_ne by congruence.
  - intros l. rewrite contents_alter by reflexivity.
    destruct (decide (sig m = l)).
    + unfold push_sig. rewrite length_imap. now destruct st.
    + now destruct st.
Qed.

(** X3. [PushAll] and [PushStrings] call the hash function once per
    element and in the order given: the record of calls grows by exactly
    the list of elements (converted to bytes for [PushStrings]). *)
Theorem PushAll_hash_calls
    (m : Minhash) (bb : list bytes) (ss : list string) (st : store) :
  (exists st', PushAll m bb st = (Done tt, st') /\
               hash_calls st' = hash_calls st ++ bb) /\
  (exists st', PushStrings m ss st = (Done tt, st') /\
               hash_calls st' = hash_calls st ++ (list_byte_of_string <$> ss)).
Proof.
  split.
  - eexists. split; [apply PushAll_run|apply hash_calls_pushall_store].
  - eexists. split; [rewrite PushStrings_PushAll; apply PushAll_run|].
    apply hash_calls_pushall_store.
Qed.

(** X4. Batches compose: [PushAll] on [l1 ++ l2] ends in the store that
    [PushAll] on [l1] followed by [PushAll] on [l2] ends in, and [PushAll]
    on the empty list changes nothing. *)
Theorem PushAll_app (m : Minhash) (l1 l2 : list bytes) (st : store) :
  exists st1 st2,
    PushAll m l1 st = (Done tt, st1) /\
    PushAll m l2 st1 = (Done tt, st2) /\
    PushAll m (l1 ++ l2) st = (Done tt, st2) /\
    PushAll m [] st = (Done tt, st).
Proof.
  exists (pushall_store m l1 st), (pushall_store m l2 (pushall_store m l1 st)).
  split; [apply PushAll_run|]. split; [apply PushAll_run|].
  split; [|reflexivity].
  rewrite PushAll_run. unfold pushall_store. now rewrite foldl_app.
Qed.

Lemma Forall_push_sig v a :
  Forall (fun x => 0 <= x < 2 ^ 64) a ->
  Forall (fun x => 0 <= x < 2 ^ 64) (push_sig v a).
Proof.
  intros Ha. apply Forall_lookup. intros i y Hy.
  rewrite lookup_push_sig in Hy.
  destruct (a !! i) as [x|] eqn:Hx; [|discriminate]. simpl in Hy.
  injection Hy as <-. unfold push_slot.
  destruct (slot_hash v i <? x).
  - rewrite slot_hash_mod. apply Z.mod_pos_bound. lia.
  - apply (proj1 (Forall_lookup _ a) Ha i x Hx).
Qed.

Lemma Forall_merge_sig o a :
  Forall (fun x => 0 <= x < 2 ^ 64) o ->
  Forall (fun x => 0 <= x < 2 ^ 64) a ->
  Forall (fun x => 0 <= x < 2 ^ 64) (merge_sig o a).
Proof.
  intros Ho Ha. apply Forall_lookup. intros i y Hy.
  rewrite lookup_merge_sig in Hy.
  destruct (a !! i) as [x|] eqn:Hx; [|discriminate]. simpl in Hy.
  injection Hy as <-. unfold merge_slot.
  pose proof (proj1 (Forall_lookup _ a) Ha i x Hx) as Hxr.
  destruct (o !! i) as [v|] eqn:Hv; [|exact Hxr].
  destruct (v <? x); [|exact Hxr].
  apply (proj1 (Forall_lookup _ o) Ho i v Hv).
Qed.

Lemma uint64_ok_contents st l :
  uint64_ok st -> Forall (fun x => 0 <= x < 2 ^ 64) (contents st l).
Proof.
  intros Hok. unfold contents. destruct (heap st !! l) as [a|] eqn:Ha; simpl.
  - now apply (Hok l).
  - constructor.
Qed.

Lemma uint64_ok_alter (f : list Z -> list Z) st c l :
  uint64_ok st ->
  (forall a, heap st !! l = Some a ->
     Forall (fun x => 0 <= x < 2 ^ 64) (f a)) ->
  uint64_ok {| heap := alter f l (heap st); hash_calls := c |}.
Proof.
  intros Hok Hf k a. simpl. destruct (decide (l = k)) as [<-|Hne].
  - rewrite lookup_alter_eq. intros H.
    apply fmap_Some in H as (a0 & Ha0 & ->). now apply Hf.
  - rewrite lookup_alter_ne by exact Hne. apply Hok.
Qed.

Lemma uint64_ok_insert st c l a :
  uint64_ok st -> Forall (fun x => 0 <= x < 2 ^ 64) a ->
  uint64_ok {| heap := <[l := a]> (heap st); hash_calls := c |}.
Proof.
  intros Hok Ha k a'. simpl. destruct (decide (l = k)) as [<-|Hne].
  - rewrite lookup_insert_eq. now intros [= <-].
  - rewrite lookup_insert_ne by exact Hne. apply Hok.
Qed.

Lemma uint64_ok_push_store m b st : uint64_ok st -> uint64_ok (push_store m b st).
Proof.
  intros Hok. apply uint64_ok_alter; [exact Hok|].
  intros a Ha. apply Forall_push_sig. now apply (Hok (sig m)).
Qed.

(** X19. If every stored slot is within [0, 2^64), it still is after
    [NewMinhash], [NewMinhashFromSigs], [Push], [PushAll], [PushStrings],
    [Merge] (returning or panicking) and [Similarity]: the wrap-around of
    [Push] never leaves the range of [uint64]. *)
Theorem operations_keep_uint64
    (m other : Minhash) (b : bytes) (bb : list bytes) (ss : list string)
    (hf : HashFunc) (size : Z) (src : slice) (st : store) :
  uint64_ok st ->
  uint64_ok (NewMinhash hf size st).2 /\
  uint64_ok (NewMinhashFromSigs hf src st).2 /\
  uint64_ok (Push m b st).2 /\
  uint64_ok (PushAll m bb st).2 /\
  uint64_ok (PushStrings m ss st).2 /\
  uint64_ok (Merge m other st).2 /\
  uint64_ok (Similarity m other st).2.
Proof.
  intros Hok.
  assert (Hall : forall l st0, uint64_ok st0 -> uint64_ok (pushall_store m l st0)).
  { unfold pushall_store. induction l as [|c l IH]; intros st0 H0; simpl; [exact H0|].
    apply IH. now apply uint64_ok_push_store. }
  split.
  { destruct (Z.lt_ge_cases size 0) as [Hneg|Hpos].
    - now rewrite NewMinhash_negative.
    - rewrite NewMinhash_run by lia. simpl. apply uint64_ok_insert; [exact Hok|].
      apply Forall_replicate. unfold max_uint64. lia. }
  split.
  { rewrite NewMinhashFromSigs_run. simpl. apply uint64_ok_insert; [exact Hok|].
    now apply uint64_ok_contents. }
  split; [rewrite Push_run; now apply uint64_ok_push_store|].
  split; [rewrite PushAll_run; now apply Hall|].
  split; [rewrite PushStrings_PushAll, PushAll_run; now apply Hall|].
  split.
  { destruct (Merge_outcome m other st) as (r & -> & _). simpl.
    unfold merge_store, set_heap. apply uint64_ok_alter; [exact Hok|].
    intros a Ha. apply Forall_merge_sig; [now apply uint64_ok_contents|].
    now apply (Hok (sig m)). }
  destruct (decide (length (contents st (sig m)) =
                    length (contents st (sig other)))) as [Heq|Hne].
  - now rewrite Similarity_run.
  - now rewrite Similarity_mismatch.
Qed.

Lemma uint64_ok_store12 : uint64_ok (store12 [5; 2] [3; 4]).
Proof.
  intros l a. unfold store12. simpl.
  destruct (decide (1%positive = l)) as [<-|H1].
  - rewrite lookup_insert_eq. intros [= <-]. repeat constructor; lia.
  - rewrite lookup_insert_ne by exact H1.
    destruct (decide (2%positive = l)) as [<-|H2].
    + rewrite lookup_insert_eq. intros [= <-]. repeat constructor; lia.
    + rewrite lookup_insert_ne by exact H2. rewrite lookup_empty. discriminate.
Defined.

Lemma operations_keep_uint64_witness :
  uint64_ok (store12 [5; 2] [3; 4]) /\
  uint64_ok (Push engine1 [x01] (store12 [5; 2] [3; 4])).2 /\
  uint64_ok (Merge engine1 engine2 (store12 [5; 2] [3; 4])).2.
Proof.
  destruct (operations_keep_uint64 engine1 engine2 [x01] [] [] hash0 0 1%positive
              (store12 [5; 2] [3; 4]) uint64_ok_store12)
    as (_ & _ & HP & _ & _ & HM & _).
  split; [exact uint64_ok_store12|]. split; [exact HP|exact HM].
Defined.


Lemma shr_m_record_of_loc m l : shr_m (shr_record_of_loc m l) = m.
Proof. now destruct l as [|[]]. Qed.

(** Rounding a 53-digit mantissa below [2^53 - 1] keeps the exponent. *)
Lemma binary_round_aux_no_shift (p : positive) (e : Z) (l : location) :
  Z.pos (digits2_pos p) = 53 -> Z.pos p < 2 ^ 53 - 1 -> -1000 <= e <= 900 ->
  exists m, binary_round_aux prec64 emax64 false (Z.pos p) e l = S754_finite false m e.
Proof.
  intros Hd Hp He. unfold binary_round_aux, shr_fexp at 1, shr at 1. simpl Zdigits2.
  replace (fexp prec64 emax64 (Z.pos (digits2_pos p) + e) - e) with 0
    by (unfold fexp, emin, prec64, emax64; lia).
  cbv iota beta. rewrite shr_m_record_of_loc.
  pose proof (digits2_pos_lower p) as Hl. rewrite Hd in Hl.
  change (2 ^ (53 - 1)) with (2 ^ 52) in Hl.
  assert (Hq : exists q, round_nearest_even (Z.pos p)
                 (loc_of_shr_record (shr_record_of_loc (Z.pos p) l)) = Z.pos q /\
               Z.pos (digits2_pos q) = 53).
  { destruct (round_nearest_even_cases p
                (loc_of_shr_record (shr_record_of_loc (Z.pos p) l))) as [-> | ->].
    - exists p. auto.
    - exists (Pos.succ p). split; [reflexivity|].
      apply digits2_pos_bounds. change (2 ^ (53 - 1)) with (2 ^ 52). lia. }
  destruct Hq as (q & -> & Hdq).
  exists q. unfold shr_fexp, shr. simpl Zdigits2.
  replace (fexp prec64 emax64 (Z.pos (digits2_pos q) + e) - e) with 0
    by (unfold fexp, emin, prec64, emax64; lia).
  simpl. now rewrite (proj2 (Z.leb_le e (emax64 - prec64)))
    by (unfold emax64, prec64; lia).
Qed.

(** Rounding a 54-digit mantissa of at most [2^54 - 2] raises the exponent
    by exactly one. *)
Lemma binary_round_aux_shift_one (p : positive) (e : Z) (l : location) :
  Z.pos (digits2_pos p) = 54 -> Z.pos p <= 2 ^ 54 - 2 -> -1000 <= e <= 900 ->
  exists m,
    binary_round_aux prec64 emax64 false (Z.pos p) e l = S754_finite false m (e + 1).
Proof.
  intros Hd Hp He. unfold binary_round_aux, shr_fexp at 1, shr at 1. simpl Zdigits2.
  replace (fexp prec64 emax64 (Z.pos (digits2_pos p) + e) - e) with 1
    by (unfold fexp, emin, prec64, emax64; lia).
  cbv iota beta. simpl SpecFloat.iter_pos.
  pose proof (digits2_pos_lower p) as Hl. rewrite Hd in Hl.
  change (2 ^ (54 - 1)) with (2 ^ 53) in Hl.
  assert (Hrec : exists r s, shr_record_of_loc (Z.pos p) l =
                   {| shr_m := Z.pos p; shr_r := r; shr_s := s |}).
  { destruct l as [|[]]; simpl; eauto. }
  destruct Hrec as (r & s & ->). rewrite shr_1_spec by lia. simpl shr_m.
  pose proof (Z.div_mod (Z.pos p) 2 ltac:(lia)) as Hdm.
  pose proof (Zmod_odd (Z.pos p)) as Hodd.
  pose proof (Z.mod_pos_bound (Z.pos p) 2 ltac:(lia)) as Hmb.
  assert (Hq : exists q,
    round_nearest_even (Z.pos p / 2)
      (loc_of_shr_record {| shr_m := Z.pos p / 2; shr_r := Z.odd (Z.pos p);
                            shr_s := r || s |}) = Z.pos q /\
    Z.pos (digits2_pos q) = 53).
  { assert (Hh : 2 ^ 52 <= Z.pos p / 2 <= 2 ^ 53 - 1) by lia.
    destruct (Z.pos p / 2) as [|h|h] eqn:Hhalf; [lia| |lia].
    destruct (Z.odd (Z.pos p)) eqn:Ho.
    - (* odd: p <= 2^54 - 3, so the half is at most 2^53 - 2 *)
      assert (Z.pos h <= 2 ^ 53 - 2) by lia.
      destruct (round_nearest_even_cases h
                  (loc_of_shr_record {| shr_m := Z.pos h; shr_r := true;
                                        shr_s := r || s |})) as [-> | ->].
      + exists h. split; [reflexivity|].
        apply digits2_pos_bounds. change (2 ^ (53 - 1)) with (2 ^ 52). lia.
      + exists (Pos.succ h). split; [reflexivity|].
        apply digits2_pos_bounds. change (2 ^ (53 - 1)) with (2 ^ 52). lia.
    - (* even: the round bit is clear, nothing is added *)
      exists h. split.
      + unfold loc_of_shr_record, round_nearest_even. now destruct (r || s).
      + apply digits2_pos_bounds. change (2 ^ (53 - 1)) with (2 ^ 52). lia. }
  destruct Hq as (q & -> & Hdq).
  exists q. unfold shr_fexp, shr. simpl Zdigits2.
  replace (fexp prec64 emax64 (Z.pos (digits2_pos q) + (e + 1)) - (e + 1)) with 0
    by (unfold fexp, emin, prec64, emax64; lia).
  simpl. now rewrite (proj2 (Z.leb_le (e + 1) (emax64 - prec64)))
    by (unfold emax64, prec64; lia).
Qed.

(** The quotient of a smaller by a larger 53-digit float is below [1.0]. *)
Lemma float64_div_lt_one (mk mn : positive) (ek en : Z) :
  Z.pos (digits2_pos mk) = 53 -> Z.pos (digits2_pos mn) = 53 ->
  -100 <= ek <= 100 -> -100 <= en <= 100 ->
  ek < en \/ (ek = en /\ Z.pos mk < Z.pos mn) ->
  exists m e,
    float64_div (S754_finite false mk ek) (S754_finite false mn en) =
      S754_finite false m e /\
    e < -52.
Proof.
  intros Hdk Hdn Hek Hen Hord.
  unfold float64_div, SFdiv, SFdiv_core_binary. simpl Zdigits2.
  rewrite Hdk, Hdn.
  replace (Z.min (fexp prec64 emax64 (53 + ek - (53 + en))) (ek - en))
    with (ek - en - 53)
    by (unfold fexp, emin, prec64, emax64; lia).
  replace (ek - en - (ek - en - 53)) with 53 by lia. cbv iota.
  rewrite Z.shiftl_mul_pow2 by lia.
  pose proof (digits2_pos_lower mk) as Hlk. pose proof (digits2_pos_upper mk) as Huk.
  pose proof (digits2_pos_lower mn) as Hln. pose proof (digits2_pos_upper mn) as Hun.
  rewrite Hdk in Hlk, Huk. rewrite Hdn in Hln, Hun.
  change (2 ^ (53 - 1)) with (2 ^ 52) in *.
  set (a := Z.pos mk * 2 ^ 53).
  pose proof (Z.div_mod a (Z.pos mn) ltac:(lia)) as Hdm.
  pose proof (Z.mod_pos_bound a (Z.pos mn) ltac:(lia)) as Hmod.
  unfold Z.div, Z.modulo in Hdm, Hmod.
  destruct (Z.div_eucl a (Z.pos mn)) as [q r].
  assert (Hqlo : 2 ^ 52 <= q) by (subst a; nia).
  assert (Hqhi : q <= 2 ^ 54 - 2) by (subst a; nia).
  destruct q as [|pq|pq]; [lia| |lia].
  change (xorb false false) with false.
  destruct (Z.lt_ge_cases (Z.pos pq) (2 ^ 53)) as [Hsmall|Hbig].
  - assert (Hdq : Z.pos (digits2_pos pq) = 53).
    { apply digits2_pos_bounds. change (2 ^ (53 - 1)) with (2 ^ 52). lia. }
    destruct (Z.eq_dec ek en) as [Heq|Hneq].
    + (* same exponent: the quotient is at most 2^53 - 2 *)
      assert (Z.pos mk < Z.pos mn) by lia.
      assert (Z.pos pq < 2 ^ 53 - 1) by (subst a; nia).
      destruct (binary_round_aux_no_shift pq (ek - en - 53)
                  (new_location (Z.pos mn) r) Hdq ltac:(lia) ltac:(lia))
        as (m & ->).
      exists m, (ek - en - 53). split; [reflexivity|lia].
    + destruct (binary_round_aux_key pq (ek - en - 53) (new_location (Z.pos mn) r)
                  ltac:(lia) ltac:(lia) ltac:(lia)) as (m & e & -> & _ & He).
      exists m, e. split; [reflexivity|]. rewrite Hdq in He. lia.
  - assert (Hdq : Z.pos (digits2_pos pq) = 54).
    { apply digits2_pos_bounds. change (2 ^ (54 - 1)) with (2 ^ 53). lia. }
    assert (ek < en).
    { destruct Hord as [?|[-> Hlt]]; [assumption|]. exfalso. subst a. nia. }
    destruct (binary_round_aux_shift_one pq (ek - en - 53)
                (new_location (Z.pos mn) r) Hdq ltac:(lia) ltac:(lia))
      as (m & ->).
    exists m, (ek - en - 53 + 1). split; [reflexivity|lia].
Qed.

Lemma key_order_strict (mk mn : positive) (ek en : Z) :
  Z.pos (digits2_pos mk) = 53 -> Z.pos (digits2_pos mn) = 53 ->
  -52 <= ek -> -52 <= en ->
  Z.pos mk * 2 ^ (ek + 52) < Z.pos mn * 2 ^ (en + 52) ->
  ek < en \/ (ek = en /\ Z.pos mk < Z.pos mn).
Proof.
  intros Hdk Hdn Hek Hen Hlt.
  destruct (key_order mk mn ek en Hdk Hdn Hek Hen ltac:(lia)) as [?|[-> Hle]];
    [now left|right].
  split; [reflexivity|]. destruct (Z.eq_dec (Z.pos mk) (Z.pos mn)) as [E|?]; [|lia].
  rewrite E in Hlt. lia.
Qed.

Lemma rounded_int_exact (p : positive) : Z.pos p < 2 ^ 53 -> rounded_int p = Z.pos p.
Proof.
  intros Hp. unfold rounded_int.
  pose proof (digits2_pos_lower p) as Hl.
  destruct (Z.leb_spec (Z.pos (digits2_pos p)) 53) as [_|Hgt]; [reflexivity|].
  exfalso. assert (2 ^ 53 <= 2 ^ (Z.pos (digits2_pos p) - 1))
    by (apply Z.pow_le_mono_r; lia).
  lia.
Qed.

Lemma float64_ratio_lt_one (k n : Z) :
  0 < k < n -> n < 2 ^ 53 ->
  exists m e,
    float64_div (float64_of_int k) (float64_of_int n) = S754_finite false m e /\
    e < -52.
Proof.
  intros Hk Hn. destruct n as [|pn|pn]; [lia| |lia].
  destruct k as [|pk|pk]; [lia| |lia].
  assert (Hmax : 2 ^ 53 <= max_int) by (unfold max_int; lia).
  destruct (float64_of_int_key pn ltac:(lia)) as (mn & en & -> & Hdn & Hen & Hvn).
  destruct (float64_of_int_key pk ltac:(lia)) as (mk & ek & -> & Hdk & Hek & Hvk).
  rewrite rounded_int_exact in Hvn, Hvk by lia.
  apply float64_div_lt_one; [exact Hdk|exact Hdn|lia|lia|].
  apply key_order_strict; [exact Hdk|exact Hdn|lia|lia|].
  rewrite Hvk, Hvn. lia.
Qed.

Lemma equal_slots_full xs ys :
  length xs = length ys -> equal_slots xs ys = length xs -> xs = ys.
Proof.
  intros Hlen Hfull. unfold equal_slots in Hfull.
  assert (Hf : forall l : list nat,
    length (filter (fun i => xs !! i = ys !! i) l) = length l ->
    forall i, i ∈ l -> xs !! i = ys !! i).
  { induction l as [|j l IH]; intros Hl i Hi; [now apply elem_of_nil in Hi|].
    rewrite filter_cons in Hl.
    pose proof (length_filter (fun i => xs !! i = ys !! i) l) as Hfl.
    destruct (decide (xs !! j = ys !! j)) as [He|He]; simpl in Hl; [|lia].
    apply elem_of_cons in Hi as [->|Hi]; [exact He|].
    apply IH; [lia|exact Hi]. }
  assert (Hfull' : length (filter (fun i => xs !! i = ys !! i) (seq 0 (length xs))) =
                   length (seq 0 (length xs)))
    by (rewrite length_seq; exact Hfull).
  apply list_eq. intros i.
  destruct (decide (i < length xs)%nat) as [Hi|Hi].
  - apply (Hf _ Hfull'). apply elem_of_seq. lia.
  - rewrite !lookup_ge_None_2 by lia. reflexivity.
Qed.

(** X13. On signatures of equal non-zero length below [2^53] (the lengths
    [float64] holds exactly) the estimate is [1.0] exactly when the two
    signatures are identical. *)
Theorem Similarity_one_iff (a b : Minhash) (st : store) :
  length (contents st (sig a)) = length (contents st (sig b)) ->
  0 < Z.of_nat (length (contents st (sig a))) < 2 ^ 53 ->
  exists r,
    Similarity a b st = (Done (r, None), st) /\
    (r = float64_one <-> contents st (sig a) = contents st (sig b)).
Proof.
  intros Heq Hlen.
  assert (Hmax : 2 ^ 53 <= max_int) by (unfold max_int; lia).
  rewrite Similarity_run by exact Heq. eexists. split; [reflexivity|].
  split.
  - intros Hone.
    apply equal_slots_full; [exact Heq|].
    pose proof (equal_slots_le (contents st (sig a)) (contents st (sig b))) as Hle.
    destruct (Nat.eq_dec (equal_slots (contents st (sig a)) (contents st (sig b)))
                         (length (contents st (sig a)))) as [E|Hne]; [exact E|].
    exfalso.
    destruct (equal_slots (contents st (sig a)) (contents st (sig b))) as [|k] eqn:Hk.
    + rewrite float64_ratio_zero in Hone by lia. discriminate.
    + destruct (float64_ratio_lt_one (Z.of_nat (S k))
                  (Z.of_nat (length (contents st (sig a)))) ltac:(lia) ltac:(lia))
        as (m & e & Hdiv & He).
      rewrite Hdiv in Hone. unfold float64_one in Hone. injection Hone as _ He'. lia.
  - intros Hsame. rewrite <- Hsame, equal_slots_self.
    destruct (float64_of_int_finite
                (Z.of_nat (length (contents st (sig a)))) ltac:(lia)) as (m & e & ->).
    apply float64_div_self.
Qed.

Lemma Similarity_one_iff_witness :
  length (contents (store12 [5; 2] [5; 4]) (sig engine1)) =
    length (contents (store12 [5; 2] [5; 4]) (sig engine2)) /\
  exists r,
    Similarity engine1 engine2 (store12 [5; 2] [5; 4]) =
      (Done (r, None), store12 [5; 2] [5; 4]) /\
    (r = float64_one <->
     contents (store12 [5; 2] [5; 4]) (sig engine1) =
       contents (store12 [5; 2] [5; 4]) (sig engine2)).
Proof.
  split; [reflexivity|].
  apply (Similarity_one_iff engine1 engine2 (store12 [5; 2] [5; 4])).
  - reflexivity.
  - vm_compute. split; reflexivity.
Defined.


Lemma check_from_run s e st : forall n k,
  (k + n = length (contents st s))%nat ->
  (length (contents st s) <= length e)%nat ->
  check_from s e (seq k n) st =
    (Done (first_mismatch k (drop k (contents st s)) (drop k e)), st).
Proof.
  induction n as [|n IH]; intros k Hk Hle.
  - simpl. rewrite drop_ge by lia. reflexivity.
  - destruct (lookup_lt_is_Some_2 (contents st s) k ltac:(lia)) as [x Hx].
    destruct (lookup_lt_is_Some_2 e k ltac:(lia)) as [y Hy].
    rewrite (drop_S _ _ _ Hx), (drop_S _ _ _ Hy). simpl.
    rewrite (bind_done _ _ st x st) by (unfold slice_get; now rewrite Hx).
    rewrite (bind_done _ _ st y st) by (unfold table_get; now rewrite Hy).
    destruct (negb (x =? y)); [reflexivity|].
    apply IH; lia.
Qed.

Lemma check_sig_run s e st :
  (length (contents st s) <= length e)%nat ->
  check_sig s e st = (Done (first_mismatch 0 (contents st s) e), st).
Proof.
  intros Hle. unfold check_sig.
  rewrite (bind_done _ _ _ _ _ (range_run s st)).
  now rewrite (check_from_run s e st _ 0%nat) by lia.
Qed.

Lemma first_mismatch_None a : forall e i,
  length a = length e -> first_mismatch i a e = None -> a = e.
Proof.
  induction a as [|x a IH]; intros [|y e] i Hlen H; simpl in *;
    try reflexivity; try discriminate.
  destruct (Z.eqb_spec x y) as [->|Hne]; simpl in H; [|discriminate].
  f_equal. apply (IH e (S i)); [lia|exact H].
Qed.

Lemma first_mismatch_Some a : forall e i j ev sv,
  first_mismatch i a e = Some (j, ev, sv) -> ev <> sv.
Proof.
  induction a as [|x a IH]; intros [|y e] i j ev sv H; simpl in *;
    try discriminate.
  destruct (Z.eqb_spec x y) as [->|Hne]; simpl in H.
  - now apply (IH _ _ _ _ _ H).
  - injection H as <- <- <-. congruence.
Qed.

(** What the helper does, for every hash function and every pair of
    tables. *)
Lemma doTest_run hf (expected : list Z * list Z) st :
  exists st',
    doTestAndGetSimilarity hf expected st = (Done (doTest_result hf expected), st').
Proof.
  destruct expected as [e0 e1].
  unfold doTestAndGetSimilarity, doTest_result. simpl fst. simpl snd.
  set (m1 := {| sig := fresh (dom (heap st)); hashFunc := hf |}).
  set (st1 := new_store (Z.of_nat (length e0)) st).
  set (m2 := {| sig := fresh (dom (heap st1)); hashFunc := hf |}).
  set (st2 := new_store (Z.of_nat (length e1)) st1).
  rewrite (bind_done _ _ st m1 st1) by (apply NewMinhash_run; apply Nat2Z.is_nonneg).
  rewrite (bind_done _ _ st1 m2 st2) by (apply NewMinhash_run; apply Nat2Z.is_nonneg).
  set (st3 := pushall_store m1 (list_byte_of_string <$> sentenceOne) st2).
  set (st4 := pushall_store m2 (list_byte_of_string <$> sentenceTwo) st3).
  rewrite (bind_done _ _ st2 tt st3)
    by (rewrite PushStrings_PushAll; apply PushAll_run).
  rewrite (bind_done _ _ st3 tt st4)
    by (rewrite PushStrings_PushAll; apply PushAll_run).
  assert (Hal : is_Some (heap st1 !! sig m1)).
  { subst st1 m1. unfold new_store. simpl. rewrite lookup_insert_eq. eauto. }
  assert (Hne : sig m2 <> sig m1).
  { intros Heq. destruct Hal as [a Ha]. rewrite <- Heq in Ha.
    subst m2. simpl in Ha. rewrite fresh_unallocated in Ha. discriminate. }
  assert (H1 : contents st4 (sig m1) = signature_of hf (length e0) sentenceOne).
  { subst st4 st3. rewrite !contents_pushall_store.
    rewrite decide_False by exact Hne. rewrite decide_True by reflexivity.
    subst st2. rewrite contents_new_store_ne by exact Hal.
    subst st1 m1. rewrite contents_new_store_eq, Nat2Z.id. reflexivity. }
  assert (H2 : contents st4 (sig m2) = signature_of hf (length e1) sentenceTwo).
  { subst st4 st3. rewrite !contents_pushall_store.
    rewrite decide_True by reflexivity. rewrite decide_False by congruence.
    subst st2 m2. rewrite contents_new_store_eq, Nat2Z.id. reflexivity. }
  assert (L1 : length (contents st4 (sig m1)) = length e0).
  { rewrite H1. unfold signature_of. now rewrite length_pushall_sig, length_replicate. }
  assert (L2 : length (contents st4 (sig m2)) = length e1).
  { rewrite H2. unfold signature_of. now rewrite length_pushall_sig, length_replicate. }
  clearbody st4 m1 m2. clear st1 st2 st3 Hal Hne.
  rewrite (bind_done _ _ _ _ _
             (check_sig_run (sig m1) e0 st4 ltac:(rewrite L1; apply le_n))).
  rewrite <- H1, <- H2.
  destruct (first_mismatch 0 (contents st4 (sig m1)) e0) as [[[i ev] sv]|];
    [eexists; reflexivity|].
  rewrite (bind_done _ _ _ _ _
             (check_sig_run (sig m2) e1 st4 ltac:(rewrite L2; apply le_n))).
  destruct (first_mismatch 0 (contents st4 (sig m2)) e1) as [[[i ev] sv]|];
    [eexists; reflexivity|].
  destruct (decide (length (contents st4 (sig m1)) =
                    length (contents st4 (sig m2)))) as [Heq|Hneq].
  - rewrite (bind_done _ _ _ _ _ (Similarity_run m1 m2 st4 Heq)).
    eexists. reflexivity.
  - rewrite (bind_done _ _ _ _ _ (Similarity_mismatch m1 m2 st4 Hneq)).
    eexists. reflexivity.
Qed.

Lemma length_signature_of hf n ss : length (signature_of hf n ss) = n.
Proof. unfold signature_of. now rewrite length_pushall_sig, length_replicate. Qed.

(** X20. For every hash function and every pair of tables the test helper
    ends without an index panic.  It returns a similarity only if both
    signatures equal their tables and the tables have the same length, and
    the similarity is then [float64] of the number of indices at which the
    two tables agree divided by [float64] of their length: the tables alone
    determine it.  When [t.Fatalf] stops it, the expected and the actual
    value it reports differ; it panics with the error of [Similarity] only
    when the tables have different lengths. *)
Theorem doTest_outcome (hf : HashFunc) (expected : list Z * list Z) (st : store) :
  exists res st',
    doTestAndGetSimilarity hf expected st = (Done res, st') /\
    match res with
    | TestReturns r =>
        signature_of hf (length expected.1) sentenceOne = expected.1 /\
        signature_of hf (length expected.2) sentenceTwo = expected.2 /\
        length expected.1 = length expected.2 /\
        r = float64_div
              (float64_of_int (Z.of_nat (equal_slots expected.1 expected.2)))
              (float64_of_int (Z.of_nat (length expected.1)))
    | TestFatal i ev sv => ev <> sv
    | TestPanicErr err =>
        err = ErrSigSizeMismatch /\ length expected.1 <> length expected.2
    end.
Proof.
  destruct (doTest_run hf expected st) as [st' Hrun].
  exists (doTest_result hf expected), st'. split; [exact Hrun|].
  clear Hrun. destruct expected as [e0 e1]. unfold doTest_result. simpl fst. simpl snd.
  pose proof (length_signature_of hf (length e0) sentenceOne) as L1.
  pose proof (length_signature_of hf (length e1) sentenceTwo) as L2.
  destruct (first_mismatch 0 (signature_of hf (length e0) sentenceOne) e0)
    as [[[i ev] sv]|] eqn:C1.
  { now apply first_mismatch_Some in C1. }
  destruct (first_mismatch 0 (signature_of hf (length e1) sentenceTwo) e1)
    as [[[i ev] sv]|] eqn:C2.
  { now apply first_mismatch_Some in C2. }
  apply first_mismatch_None in C1; [|exact L1].
  apply first_mismatch_None in C2; [|exact L2].
  rewrite C1, C2 in *.
  destruct (decide (length e0 = length e1)) as [Heq|Hneq]; auto.
Qed.

(** X21. On each of the three pairs of tables of the test file, and for
    every hash function, the helper either stops at a slot where the
    signature differs from the table, or returns exactly [0.5] (4 of the 8
    entries of each pair agree); it never panics.  So the tests' check of
    the similarity against [0.5] cannot fail once the tables have
    matched. *)
Theorem doTest_golden_tables (hf : HashFunc) (expected : list Z * list Z) (st : store) :
  expected ∈ [expectedFromOneHashA; expectedFromOneHashB; expectedFromTwoHashes] ->
  exists res st',
    doTestAndGetSimilarity hf expected st = (Done res, st') /\
    match res with
    | TestReturns r => r = float64_half
    | TestFatal i ev sv => ev <> sv
    | TestPanicErr err => False
    end.
Proof.
  intros Hin.
  destruct (doTest_run hf expected st) as [st' Hrun].
  exists (doTest_result hf expected), st'. split; [exact Hrun|].
  clear Hrun. unfold doTest_result.
  pose proof (length_signature_of hf (length expected.1) sentenceOne) as L1.
  pose proof (length_signature_of hf (length expected.2) sentenceTwo) as L2.
  destruct (first_mismatch 0 (signature_of hf (length expected.1) sentenceOne)
              expected.1) as [[[i ev] sv]|] eqn:C1.
  { now apply first_mismatch_Some in C1. }
  destruct (first_mismatch 0 (signature_of hf (length expected.2) sentenceTwo)
              expected.2) as [[[i ev] sv]|] eqn:C2.
  { now apply first_mismatch_Some in C2. }
  apply first_mismatch_None in C1; [|exact L1].
  apply first_mismatch_None in C2; [|exact L2].
  rewrite C1, C2. clear C1 C2 L1 L2.
  rewrite !elem_of_cons, elem_of_nil in Hin.
  destruct Hin as [->|[->|[->|[]]]]; vm_compute; reflexivity.
Qed.

Lemma doTest_golden_tables_witness :
  expectedFromTwoHashes ∈
    [expectedFromOneHashA; expectedFromOneHashB; expectedFromTwoHashes] /\
  exists res st',
    doTestAndGetSimilarity hash0 expectedFromTwoHashes store0 = (Done res, st') /\
    match res with
    | TestReturns r => r = float64_half
    | TestFatal i ev sv => ev <> sv
    | TestPanicErr err => False
    end.
Proof.
  assert (H : expectedFromTwoHashes ∈
    [expectedFromOneHashA; expectedFromOneHashB; expectedFromTwoHashes]).
  { right. right. left. }
  split; [exact H|].
  apply (doTest_golden_tables hash0 expectedFromTwoHashes store0 H).
Defined.


Lemma Similarity_nonempty_bounds_witness :
  length (contents (store12 [5; 2; 9] [5; 4; 9]) (sig engine1)) =
    length (contents (store12 [5; 2; 9] [5; 4; 9]) (sig engine2)) /\
  exists r,
    Similarity engine1 engine2 (store12 [5; 2; 9] [5; 4; 9]) =
      (Done (r, None), store12 [5; 2; 9] [5; 4; 9]) /\
    float64_leb float64_zero r = true /\
    float64_leb r float64_one = true.
Proof.
  split; [reflexivity|].
  apply (Similarity_nonempty_bounds engine1 engine2 (store12 [5; 2; 9] [5; 4; 9])).
  - reflexivity.
  - vm_compute. split; [reflexivity|discriminate].
Defined.
